(** * In-memory data store: consistent-hash ring, key-value store,
      write-ahead log, node command handler, ring buffer, thread pool

    A shallow embedding of [src/src/distributed_node.cpp] (which also holds
    the data-store classes) and [src/include/concurrency.hpp], together
    with the properties the specification states about them.

    Conventions.
    - [std::string] is [string]; a file or a socket buffer is the string
      of its bytes.
    - [std::unordered_map<string,string>] is [gmap string string].
    - [std::map<size_t,string>] is the list of its entries in iteration
      order (ascending keys).
    - [size_t] arithmetic is written on [Z] with the reduction modulo
      [2^64] spelled out.
    - [std::hash<std::string>] is implementation defined; it is a
      parameter of everything that hashes. *)

From Stdlib Require Import ZArith NArith Lia Ascii String.
From stdpp Require Import gmap strings list fin_maps pretty finite.

(* ===================================================================== *)
(** ** Formatted extraction: [std::istream >> std::string]               *)
(* ===================================================================== *)

Module IStream.

(** [std::isspace] in the classic locale: space and the five control
    characters 9..13. *)
Definition isspace (c : ascii) : bool :=
  let n := N_of_ascii c in
  ((n =? 32) || ((9 <=? n) && (n <=? 13)))%N.

(** The sentry of a formatted input function skips leading whitespace. *)
Fixpoint skip_ws (s : string) : string :=
  match s with
  | String c s' => if isspace c then skip_ws s' else s
  | EmptyString => EmptyString
  end.

(** Characters are then extracted up to the next whitespace character or
    the end of the input; the delimiter stays in the stream. *)
Fixpoint take_word (s : string) : string * string :=
  match s with
  | String c s' =>
      if isspace c then (EmptyString, s)
      else let '(w, r) := take_word s' in (String c w, r)
  | EmptyString => (EmptyString, EmptyString)
  end.

(** The part of a stream that the code observes: the bytes not yet
    consumed and the fail bit.  (The eof bit is set exactly when a read
    hit the end, in which case [rest] is empty and the next sentry
    fails all the same.) *)
Record istream := { rest : string; failbit : bool }.

Definition open (contents : string) : istream :=
  {| rest := contents; failbit := false |}.

(** [ins >> str].  When the sentry fails (stream already failed, or only
    whitespace left) the target string is left as it was and the fail
    bit is set; otherwise the target is replaced by the extracted word. *)
Definition extract (ins : istream) (str : string) : istream * string :=
  if failbit ins then (ins, str)
  else
    match skip_ws (rest ins) with
    | EmptyString => ({| rest := EmptyString; failbit := true |}, str)
    | String c s' =>
        let '(w, r) := take_word (String c s') in
        ({| rest := r; failbit := false |}, w)
    end.

End IStream.

(* ===================================================================== *)
(** ** ConcurrentHashMap                                                 *)
(* ===================================================================== *)

Module ConcurrentHashMap.

(** Every method body runs under [mtx_]; one call is one atomic step on
    [kvStore_]. *)
Abbreviation t := (gmap string string).

(** [kvStore_[key] = value] *)
Definition put (key value : string) (kvStore_ : t) : t :=
  <[key := value]> kvStore_.

(** [find] + copy into [outVal]; [None] is the [false] return, which
    leaves [outVal] alone. *)
Definition get (key : string) (kvStore_ : t) : option string :=
  kvStore_ !! key.

(** [unordered_map::erase(key)]: the number of elements removed. *)
Definition erase (key : string) (kvStore_ : t) : nat * t :=
  (match kvStore_ !! key with Some _ => 1 | None => 0 end,
   delete key kvStore_).

(** [return kvStore_.erase(key) > 0;] *)
Definition remove (key : string) (kvStore_ : t) : bool * t :=
  let '(n, m) := erase key kvStore_ in ((0 <? n)%nat, m).

(** A mutation, as it is applied to a store or written to the log. *)
Inductive op :=
| Put (key value : string)
| Remove (key : string).

Definition apply (o : op) (m : t) : t :=
  match o with
  | Put k v => put k v m
  | Remove k => snd (remove k m)
  end.

Definition apply_all (ops : list op) (m : t) : t :=
  foldl (fun m o => apply o m) m ops.

Definition touches (k : string) (o : op) : Prop :=
  match o with Put k' _ => k' = k | Remove k' => k' = k end.

Definition is_put_of (k : string) (o : op) : Prop :=
  match o with Put k' _ => k' = k | Remove _ => False end.

(** The words of the specification about one key and a history of
    mutations applied to a fresh store: the key was never put, or it
    was removed since its last put. *)
Definition never_put (k : string) (ops : list op) : Prop :=
  Forall (fun o => ~ is_put_of k o) ops.

Definition removed_since_last_put (k : string) (ops : list op) : Prop :=
  exists before v since,
    ops = before ++ Put k v :: since /\
    never_put k since /\
    In (Remove k) since.

(** What a history of mutations says about key [k]: nothing ([None]), or
    the value its last put left or its removal ([Some]). *)
Fixpoint outcome (k : string) (ops : list op) : option (option string) :=
  match ops with
  | [] => None
  | o :: ops' =>
      match outcome k ops' with
      | Some r => Some r
      | None =>
          match o with
          | Put k' v => if decide (k' = k) then Some (Some v) else None
          | Remove k' => if decide (k' = k) then Some None else None
          end
      end
  end.

End ConcurrentHashMap.

(* ===================================================================== *)
(** ** WriteAheadLog                                                     *)
(* ===================================================================== *)

Module WriteAheadLog.
Import IStream.

(** The line feed written after every record. *)
Definition nl : string := String (ascii_of_N 10) EmptyString.

(** The log is modelled by the bytes of the file [filename_].
    [walStream_] is opened with [ios::app], so every write lands at the
    end, and each write is flushed before the call returns.

    [walStream_ << "PUT " << key << " " << value << "\n";] *)
Definition logPut (key value : string) (file : string) : string :=
  file +:+ "PUT " +:+ key +:+ " " +:+ value +:+ nl.

(** [walStream_ << "REMOVE " << key << "\n";] *)
Definition logRemove (key : string) (file : string) : string :=
  file +:+ "REMOVE " +:+ key +:+ nl.

(** The body of [while (true) { ... }] in [replay].  [cmd] lives outside
    the loop; [key] and [value] are fresh (empty) strings in every
    iteration.  The results of [in >> key >> value] and [in >> key] are
    not tested by the code.  [fuel] bounds the number of iterations;
    [None] means the bound was reached before the loop left. *)
Fixpoint replay_loop (fuel : nat) (ins : istream) (cmd : string)
    (store : gmap string string) : option (gmap string string) :=
  match fuel with
  | O => None
  | S fuel' =>
      let '(ins1, cmd1) := extract ins cmd in
      if failbit ins1 then Some store
      else if String.eqb cmd1 "PUT" then
        let '(ins2, key) := extract ins1 EmptyString in
        let '(ins3, value) := extract ins2 EmptyString in
        replay_loop fuel' ins3 cmd1 (ConcurrentHashMap.put key value store)
      else if String.eqb cmd1 "REMOVE" then
        let '(ins2, key) := extract ins1 EmptyString in
        replay_loop fuel' ins2 cmd1
          (snd (ConcurrentHashMap.remove key store))
      else replay_loop fuel' ins1 cmd1 store
  end.

(** [replay(store)] on a log file that could be opened (the constructor
    created it; a file that cannot be opened ends the process in
    [CHECK_RET]).  Every iteration but the last consumes at least one
    byte, so [length file + 1] iterations are enough: see
    [replay_loop_fuel] and [replay_total] below. *)
Definition replay (file : string) (store : gmap string string)
    : option (gmap string string) :=
  replay_loop (S (String.length file)) (open file) EmptyString store.

(** The loop entered with a stream in any state, with the fuel that
    [replay] gives it. *)
Definition replay_from (ins : istream) (cmd : string)
    (store : gmap string string) : option (gmap string string) :=
  replay_loop (S (String.length (rest ins))) ins cmd store.

(** *** Vocabulary of the statements about the log *)

(** A string that [>>] reads back whole: not empty, no whitespace. *)
Fixpoint no_space (s : string) : bool :=
  match s with
  | String c s' => negb (isspace c) && no_space s'
  | EmptyString => true
  end.

Definition is_token (s : string) : bool :=
  match s with
  | EmptyString => false
  | String _ _ => no_space s
  end.

(** A string of whitespace only (possibly empty). *)
Fixpoint all_space (s : string) : bool :=
  match s with
  | String c s' => isspace c && all_space s'
  | EmptyString => true
  end.

(** What may follow a word in a stream: nothing, or a whitespace
    character and then anything. *)
Definition ends_word (s : string) : bool :=
  match s with
  | String c _ => isspace c
  | EmptyString => true
  end.

(** Logging one mutation, and a whole sequence in order. *)
Definition log (o : ConcurrentHashMap.op) (file : string) : string :=
  match o with
  | ConcurrentHashMap.Put k v => logPut k v file
  | ConcurrentHashMap.Remove k => logRemove k file
  end.

Definition log_all (ops : list ConcurrentHashMap.op) (file : string)
    : string :=
  foldl (fun f o => log o f) file ops.

(** A mutation whose key and value are tokens. *)
Definition op_tokens (o : ConcurrentHashMap.op) : bool :=
  match o with
  | ConcurrentHashMap.Put k v => is_token k && is_token v
  | ConcurrentHashMap.Remove k => is_token k
  end.

(** A record cut short: the operation word is there, but fewer arguments
    than the operation takes. *)
Inductive truncated :=
| PutNoArgs
| PutKeyOnly (key : string)
| RemoveNoArgs.

Definition truncated_text (t : truncated) : string :=
  match t with
  | PutNoArgs => "PUT"
  | PutKeyOnly key => "PUT " +:+ key
  | RemoveNoArgs => "REMOVE"
  end.

Definition truncated_tokens (t : truncated) : bool :=
  match t with
  | PutKeyOnly key => is_token key
  | _ => true
  end.

(** What the loop body does with a record cut short: the arguments that
    could not be read are the empty strings [key] and [value] were
    constructed as. *)
Definition truncated_effect (t : truncated) : ConcurrentHashMap.op :=
  match t with
  | PutNoArgs => ConcurrentHashMap.Put EmptyString EmptyString
  | PutKeyOnly key => ConcurrentHashMap.Put key EmptyString
  | RemoveNoArgs => ConcurrentHashMap.Remove EmptyString
  end.

End WriteAheadLog.

(* ===================================================================== *)
(** ** DistributedNode: the command handler                              *)
(* ===================================================================== *)

Module DistributedNode.
Import IStream.

(** The members that [handleClient] reads or writes: the store and the
    log file behind [wal_]. *)
Record node := {
  dataStore_ : gmap string string;
  wal_ : string
}.

(** [dataStore_.put(key, value); wal_.logPut(key, value);] *)
Definition put (key value : string) (n : node) : node :=
  {| dataStore_ := ConcurrentHashMap.put key value (dataStore_ n);
     wal_ := WriteAheadLog.logPut key value (wal_ n) |}.

Definition get (key : string) (n : node) : option string :=
  ConcurrentHashMap.get key (dataStore_ n).

(** [dataStore_.remove(key); wal_.logRemove(key);] *)
Definition removeKey (key : string) (n : node) : node :=
  {| dataStore_ := snd (ConcurrentHashMap.remove key (dataStore_ n));
     wal_ := WriteAheadLog.logRemove key (wal_ n) |}.

(** What one call of [handleClient] leaves behind: the node, the
    messages passed to [send] in order, and whether [close(clientSock)]
    was called. *)
Record outcome := {
  after : node;
  sent : list string;
  closed : bool
}.

(** [handleClient(clientSock)].  [request] is what [recv] put into the
    buffer (at most 1023 bytes); [bytesRead] is its length, and an error
    or an orderly shutdown of the peer ([bytesRead <= 0]) is the empty
    request. *)
Definition handleClient (n : node) (request : string) : outcome :=
  if (0 <? String.length request)%nat then
    let iss := open request in
    let '(iss1, cmd) := extract iss EmptyString in
    if String.eqb cmd "PUT" then
      let '(iss2, key) := extract iss1 EmptyString in
      let '(iss3, value) := extract iss2 EmptyString in
      {| after := put key value n; sent := []; closed := true |}
    else if String.eqb cmd "REMOVE" then
      let '(iss2, key) := extract iss1 EmptyString in
      {| after := removeKey key n; sent := []; closed := true |}
    else if String.eqb cmd "GET" then
      let '(iss2, key) := extract iss1 EmptyString in
      match get key n with
      | Some val =>
          {| after := n;
             sent := ["VALUE " +:+ val +:+ WriteAheadLog.nl];
             closed := true |}
      | None =>
          {| after := n;
             sent := ["NOT_FOUND" +:+ WriteAheadLog.nl];
             closed := true |}
      end
    else {| after := n; sent := []; closed := true |}
  else {| after := n; sent := []; closed := true |}.

(** The constructor: [wal_(walFile)] opens the log file (creating it when
    it is missing), and [wal_.replay(dataStore_)] fills the fresh store
    before the server thread starts.  [walFile] is the file's contents. *)
Definition construct (walFile : string) : option node :=
  match WriteAheadLog.replay walFile ∅ with
  | Some store => Some {| dataStore_ := store; wal_ := walFile |}
  | None => None
  end.

(** A call of [put] or [removeKey] from the owner of the node. *)
Definition call (o : ConcurrentHashMap.op) (n : node) : node :=
  match o with
  | ConcurrentHashMap.Put k v => put k v n
  | ConcurrentHashMap.Remove k => removeKey k n
  end.

Definition calls (os : list ConcurrentHashMap.op) (n : node) : node :=
  foldl (fun n o => call o n) n os.

(** The accept loop of [runServer]: every accepted connection is handled
    by [handleClient] on the server thread before the next [accept].
    [requests] are the bytes received on the successive connections; the
    result is the node when the loop is left and what was sent on each
    connection. *)
Fixpoint runServer (requests : list string) (n : node)
    : node * list (list string) :=
  match requests with
  | [] => (n, [])
  | request :: requests' =>
      let o := handleClient n request in
      let '(n', responses) := runServer requests' (after o) in
      (n', sent o :: responses)
  end.

(** The command lines of the wire protocol, as a client writes them. *)
Inductive command :=
| CmdPut (key value : string)
| CmdRemove (key : string)
| CmdGet (key : string).

Definition command_line (c : command) : string :=
  match c with
  | CmdPut k v => "PUT " +:+ k +:+ " " +:+ v +:+ WriteAheadLog.nl
  | CmdRemove k => "REMOVE " +:+ k +:+ WriteAheadLog.nl
  | CmdGet k => "GET " +:+ k +:+ WriteAheadLog.nl
  end.

(** The mutation a command asks for, if any. *)
Definition mutation (c : command) : option ConcurrentHashMap.op :=
  match c with
  | CmdPut k v => Some (ConcurrentHashMap.Put k v)
  | CmdRemove k => Some (ConcurrentHashMap.Remove k)
  | CmdGet _ => None
  end.

Definition command_tokens (c : command) : bool :=
  match c with
  | CmdPut k v => WriteAheadLog.is_token k && WriteAheadLog.is_token v
  | CmdRemove k => WriteAheadLog.is_token k
  | CmdGet k => WriteAheadLog.is_token k
  end.

(** [recv(clientSock, buffer, sizeof(buffer) - 1, 0)] on a connection
    on which the client has written [written] and all of it has arrived:
    the one call reads the first 1023 bytes at most, and nothing reads
    the rest. *)
Definition recv (written : string) : string := substring 0 1023 written.

(** The accept loop on connections on which clients wrote [written]. *)
Definition serve (written : list string) (n : node)
    : node * list (list string) :=
  runServer (map recv written) n.

(** A command line that the one [recv] reads whole. *)
Definition line_fits (c : command) : bool :=
  (String.length (command_line c) <=? 1023)%nat.

(** The log holds the records of a history of token mutations, and the
    store is what that history makes of an empty store. *)
Definition in_step (n : node) : Prop :=
  exists ops,
    Forall (fun o => WriteAheadLog.op_tokens o = true) ops /\
    wal_ n = WriteAheadLog.log_all ops EmptyString /\
    dataStore_ n = ConcurrentHashMap.apply_all ops ∅.

(** A command that puts or removes key [k]. *)
Definition writes (k : string) (c : command) : Prop :=
  match mutation c with
  | Some o => ConcurrentHashMap.touches k o
  | None => False
  end.

End DistributedNode.

(* ===================================================================== *)
(** ** ConsistentHashRing                                                *)
(* ===================================================================== *)

Module ConsistentHashRing.

(** [std::to_string(int)] *)
Definition to_string (i : Z) : string := pretty i.

(** [nodeName + "#" + std::to_string(i)] *)
Definition replica (nodeName : string) (i : nat) : string :=
  nodeName +:+ "#" +:+ to_string (Z.of_nat i).

(** [std::map<size_t, std::string>]: the entries in iteration order.  An
    iterator is the part of the sequence that starts at its position;
    [end()] is the empty part and [begin()] the whole. *)
Abbreviation points := (list (N * string)).

(** [m[h] = name]: overwrite the entry with key [h], or insert it at its
    place in the order. *)
Fixpoint assign (h : N) (name : string) (m : points) : points :=
  match m with
  | [] => [(h, name)]
  | (h', name') :: m' =>
      if (h <? h')%N then (h, name) :: m
      else if (h =? h')%N then (h, name) :: m'
      else (h', name') :: assign h name m'
  end.

(** [m.erase(h)] *)
Fixpoint erase (h : N) (m : points) : points :=
  match m with
  | [] => []
  | (h', name') :: m' =>
      if (h =? h')%N then m' else (h', name') :: erase h m'
  end.

(** [m.lower_bound(h)]: the first entry whose key is not less than [h]. *)
Fixpoint lower_bound (h : N) (m : points) : points :=
  match m with
  | [] => []
  | (h', name') :: m' => if (h' <? h)%N then lower_bound h m' else m
  end.

(** [m.find(h)], used in statements only. *)
Fixpoint find (h : N) (m : points) : option string :=
  match m with
  | [] => None
  | (h', name') :: m' => if (h =? h')%N then Some name' else find h m'
  end.

Record ring := {
  ring_ : points;
  numReplicas_ : Z   (* an [int] *)
}.

(** [ConsistentHashRing(int numReplicas = 100)] *)
Definition make (numReplicas : Z) : ring :=
  {| ring_ := []; numReplicas_ := numReplicas |}.

Section Hashed.

(** [std::hash<std::string>()], with values in [size_t]. *)
Variable hash : string -> N.

(** The loop [for (int i = 0; i < numReplicas_; ++i)] of [addNode],
    on the map. *)
Definition add_points (nodeName : string) (count : nat) (m : points)
    : points :=
  foldl (fun m i => assign (hash (replica nodeName i)) nodeName m)
        m (seq 0 count).

(** The same loop of [removeNode]. *)
Definition remove_points (nodeName : string) (count : nat) (m : points)
    : points :=
  foldl (fun m i => erase (hash (replica nodeName i)) m) m (seq 0 count).

Definition addNode (nodeName : string) (r : ring) : ring :=
  {| ring_ := add_points nodeName (Z.to_nat (numReplicas_ r)) (ring_ r);
     numReplicas_ := numReplicas_ r |}.

Definition removeNode (nodeName : string) (r : ring) : ring :=
  {| ring_ := remove_points nodeName (Z.to_nat (numReplicas_ r)) (ring_ r);
     numReplicas_ := numReplicas_ r |}.

Definition getNode (key : string) (r : ring) : string :=
  match ring_ r with
  | [] => EmptyString
  | _ :: _ =>
      let hashVal := hash key in
      let it := lower_bound hashVal (ring_ r) in
      let it := match it with [] => ring_ r | _ :: _ => it end in
      match it with
      | (_, name) :: _ => name
      | [] => EmptyString
      end
  end.

(** Membership changes, and a ring after a sequence of them. *)
Inductive call :=
| AddNode (nodeName : string)
| RemoveNode (nodeName : string).

Definition step (c : call) (r : ring) : ring :=
  match c with
  | AddNode n => addNode n r
  | RemoveNode n => removeNode n r
  end.

Definition run (cs : list call) (r : ring) : ring :=
  foldl (fun r c => step c r) r cs.

End Hashed.

(** The representation invariant of [std::map]: keys strictly ascending. *)
Fixpoint ascending (m : points) : Prop :=
  match m with
  | [] => True
  | (h, _) :: m' =>
      match m' with
      | [] => True
      | (h', _) :: _ => (h < h')%N
      end /\ ascending m'
  end.

(** [h] is the key of the point that owns hash value [hk]: the least
    key that is not below [hk], or, when every key is below [hk], the
    least key of all. *)
Definition clockwise_first (hk h : N) (m : points) : Prop :=
  ((hk <= h)%N /\
   forall h' n', In (h', n') m -> (hk <= h')%N -> (h <= h')%N) \/
  ((forall h' n', In (h', n') m -> (h' < hk)%N) /\
   forall h' n', In (h', n') m -> (h <= h')%N).

(** The hash values of the [count] replica names of a node. *)
Definition replica_hashes (hash : string -> N) (nodeName : string)
    (count : nat) : list N :=
  map (fun i => hash (replica nodeName i)) (seq 0 count).

(** Every point sits at a replica hash of the name it holds. *)
Definition names_hashed (hash : string -> N) (r : ring) : Prop :=
  forall h n, In (h, n) (ring_ r) ->
    In h (replica_hashes hash n (Z.to_nat (numReplicas_ r))).

(** No point holds the name [C]. *)
Definition absent (C : string) (r : ring) : Prop :=
  forall h, ~ In (h, C) (ring_ r).

(** [C] was removed and not added again afterwards. *)
Definition removed_for_good (C : string) (cs : list call) : Prop :=
  exists before afterwards,
    cs = before ++ RemoveNode C :: afterwards /\
    ~ In (AddNode C) afterwards.

(** [size_t] is 64 bits wide. *)
Definition size_t_range (hash : string -> N) : Prop :=
  forall s, (hash s < 2 ^ 64)%N.

(** A polynomial string hash with values in [size_t].  It stands in for
    [std::hash] where a statement is evaluated at a concrete input; no
    general statement depends on it. *)
Fixpoint sample_hash_from (h : N) (s : string) : N :=
  match s with
  | EmptyString => h
  | String c s' =>
      sample_hash_from ((h * 31 + N_of_ascii c) mod 2 ^ 64)%N s'
  end.

Definition sample_hash (s : string) : N := sample_hash_from 0 s.

(** The property of C4 as the specification words it, for one hash
    function: a membership change moves a key only to, or only from, the
    node that was added or removed. *)
Definition moves_only_own_keys (hash : string -> N) : Prop :=
  forall (numReplicas : Z) (cs : list call) (X key : string),
    (getNode hash key (addNode hash X (run hash cs (make numReplicas)))
       <> getNode hash key (run hash cs (make numReplicas)) ->
     getNode hash key (addNode hash X (run hash cs (make numReplicas)))
       = X) /\
    (getNode hash key (removeNode hash X (run hash cs (make numReplicas)))
       <> getNode hash key (run hash cs (make numReplicas)) ->
     getNode hash key (run hash cs (make numReplicas)) = X).

End ConsistentHashRing.

(* ===================================================================== *)
(** ** LockFreeRingBuffer, used by one thread                            *)
(* ===================================================================== *)

Module LockFreeRingBuffer.
Local Open Scope Z_scope.

(** Reduction of a [size_t] result. *)
Definition wrap (x : Z) : Z := x mod 2 ^ 64.

Section Buffer.

Context {T : Type}.

(** The template parameter [size_t Size]. *)
Variable Size : Z.

(** [buffer_] has [Size + 1] slots; the atomics are plain fields when a
    single thread calls the methods. *)
Record t := {
  buffer_ : list T;
  head_ : Z;
  tail_ : Z
}.

(** The constructor sets both indices to 0 and leaves the slots as they
    are ([slots]). *)
Definition make (slots : list T) : t :=
  {| buffer_ := slots; head_ := 0; tail_ := 0 |}.

Definition push (item : T) (rb : t) : bool * t :=
  let head := head_ rb in
  let nextHead := wrap (head + 1) mod wrap (Size + 1) in
  if nextHead =? tail_ rb then (false, rb)
  else (true, {| buffer_ := <[Z.to_nat head := item]> (buffer_ rb);
                 head_ := nextHead;
                 tail_ := tail_ rb |}).

(** [pop(item)]: [item] is an out-parameter; a failed call leaves it. *)
Definition pop (item : T) (rb : t) : bool * T * t :=
  let tail := tail_ rb in
  if tail =? head_ rb then (false, item, rb)
  else (true,
        default item (buffer_ rb !! Z.to_nat tail),
        {| buffer_ := buffer_ rb;
           head_ := head_ rb;
           tail_ := wrap (tail + 1) mod wrap (Size + 1) |}).

Definition size (rb : t) : Z :=
  let h := head_ rb in
  let tl := tail_ rb in
  if h >=? tl then wrap (h - tl)
  else wrap (wrap (Size + 1) - wrap (tl - h)).

(** Both indices are within the array. *)
Definition in_range (rb : t) : Prop :=
  0 <= head_ rb < Size + 1 /\ 0 <= tail_ rb < Size + 1.

(** A sequential use of the buffer: the calls in order.  [Pop item]
    passes a variable that holds [item] before the call. *)
Inductive call :=
| Push (item : T)
| Pop (item : T).

Definition is_push (c : call) : bool :=
  match c with Push _ => true | Pop _ => false end.

(** One call: its boolean result and the buffer after it. *)
Definition step (c : call) (rb : t) : bool * t :=
  match c with
  | Push x => push x rb
  | Pop x => let '(ok, _, rb') := pop x rb in (ok, rb')
  end.

(** The calls with their results, and the buffer after the last one. *)
Fixpoint run (cs : list call) (rb : t) : list (call * bool) * t :=
  match cs with
  | [] => ([], rb)
  | c :: cs' =>
      let '(ok, rb1) := step c rb in
      let '(tr, rb2) := run cs' rb1 in
      ((c, ok) :: tr, rb2)
  end.

(** The number of successful pushes ([K]) and pops ([J]) in a trace. *)
Definition pushed (tr : list (call * bool)) : Z :=
  Z.of_nat (length (List.filter (fun e => is_push (fst e) && snd e) tr)).

Definition popped (tr : list (call * bool)) : Z :=
  Z.of_nat
    (length (List.filter (fun e => negb (is_push (fst e)) && snd e) tr)).

(** The indices are in range and the array has its [Size + 1] slots. *)
Definition well_formed (rb : t) : Prop :=
  in_range rb /\ Z.of_nat (length (buffer_ rb)) = Size + 1.

(** The items that the successful pushes of a trace stored, in order. *)
Definition accepted (tr : list (call * bool)) : list T :=
  omap (fun e => match e with
                 | (Push x, true) => Some x
                 | _ => None
                 end) tr.

(** The items that the successful pops of a sequence of calls wrote to
    their out-parameter, in order. *)
Fixpoint delivered (cs : list call) (rb : t) : list T :=
  match cs with
  | [] => []
  | Push x :: cs' => delivered cs' (snd (push x rb))
  | Pop x :: cs' =>
      let '(ok, item, rb') := pop x rb in
      if ok then item :: delivered cs' rb' else delivered cs' rb'
  end.

(** The slots from [tail_] up to [head_], in ring order. *)
Definition contents (rb : t) : list T :=
  omap (fun k => buffer_ rb
                 !! Z.to_nat ((tail_ rb + Z.of_nat k) mod (Size + 1)))
       (seq 0 (Z.to_nat (size rb))).

End Buffer.

Arguments t : clear implicits.
Arguments call : clear implicits.

End LockFreeRingBuffer.

(* ===================================================================== *)
(** ** ThreadPool: the queue and the stop flag                           *)
(* ===================================================================== *)

Module ThreadPool.

Inductive exception :=
| runtime_error (what : string).

Section Pool.

(** [std::function<void()>] *)
Variable task : Type.

(** The members guarded by [queueMutex_]. *)
Record t := {
  tasks_ : list task;
  stop_ : bool
}.

(** The constructor: [stop_(false)], an empty queue. *)
Definition make : t := {| tasks_ := []; stop_ := false |}.

(** The locked block of [enqueue]: throw on a stopped pool, otherwise
    [tasks_.emplace_back(...)]. *)
Definition enqueue (f : task) (p : t) : exception + t :=
  if stop_ p then inl (runtime_error "enqueue on stopped ThreadPool")
  else inr {| tasks_ := tasks_ p ++ [f]; stop_ := stop_ p |}.

(** The locked block of the destructor: [stop_ = true]. *)
Definition begin_destruction (p : t) : t :=
  {| tasks_ := tasks_ p; stop_ := true |}.

(** The locked block of a worker once its wait is over: leave when
    stopped and drained, otherwise take the front task. *)
Definition worker_take (p : t) : option task * t :=
  match tasks_ p with
  | [] => (None, p)
  | f :: q => (Some f, {| tasks_ := q; stop_ := stop_ p |})
  end.

(** What can happen to the pool between two points in time: each event
    is one locked block. *)
Inductive event :=
| Enqueue (f : task)
| WorkerTake
| BeginDestruction.

Definition after_event (e : event) (p : t) : t :=
  match e with
  | Enqueue f => match enqueue f p with inl _ => p | inr p' => p' end
  | WorkerTake => snd (worker_take p)
  | BeginDestruction => begin_destruction p
  end.

Definition after_events (es : list event) (p : t) : t :=
  foldl (fun p e => after_event e p) p es.

(** One pass of the worker's [while (true)] body under the lock.  The
    wait ends when [stop_ || !tasks_.empty()]; until then the worker is
    blocked.  Then it returns when stopped with an empty queue, and
    otherwise moves the front task out of the queue to run it. *)
Inductive worker_step :=
| Blocked
| Returned
| Runs (f : task).

Definition no_tasks (p : t) : bool :=
  match tasks_ p with [] => true | _ :: _ => false end.

Definition worker_iteration (p : t) : worker_step * t :=
  if negb (stop_ p || negb (no_tasks p)) then (Blocked, p)
  else if stop_ p && no_tasks p then (Returned, p)
  else
    match tasks_ p with
    | f :: q => (Runs f, {| tasks_ := q; stop_ := stop_ p |})
    | [] => (Blocked, p)   (* [front()] of an empty list: not reached *)
    end.

(** The tasks a sequence of events queued, and the tasks it handed to
    workers, in order. *)
Fixpoint queued (es : list event) (p : t) : list task :=
  match es with
  | [] => []
  | e :: es' =>
      match e with
      | Enqueue f => match enqueue f p with inr _ => [f] | inl _ => [] end
      | _ => []
      end ++ queued es' (after_event e p)
  end.

Fixpoint taken (es : list event) (p : t) : list task :=
  match es with
  | [] => []
  | e :: es' =>
      match e with
      | WorkerTake => match fst (worker_take p) with
                      | Some f => [f]
                      | None => []
                      end
      | _ => []
      end ++ taken es' (after_event e p)
  end.

(** [n] passes of workers, one after another. *)
Fixpoint worker_iterations (n : nat) (p : t) : list worker_step * t :=
  match n with
  | O => ([], p)
  | S n' =>
      let '(s, p1) := worker_iteration p in
      let '(ss, p2) := worker_iterations n' p1 in
      (s :: ss, p2)
  end.

End Pool.

Arguments make {task}.
Arguments enqueue {task}.
Arguments begin_destruction {task}.
Arguments worker_take {task}.
Arguments after_event {task}.
Arguments after_events {task}.
Arguments tasks_ {task}.
Arguments stop_ {task}.
Arguments Enqueue {task}.
Arguments WorkerTake {task}.
Arguments BeginDestruction {task}.
Arguments Blocked {task}.
Arguments Returned {task}.
Arguments Runs {task}.
Arguments no_tasks {task}.
Arguments worker_iteration {task}.
Arguments worker_iterations {task}.
Arguments queued {task}.
Arguments taken {task}.

End ThreadPool.

(* ===================================================================== *)
(** ** ColumnarTable and the scan of GPUAcceleratedAnalytics             *)
(* ===================================================================== *)

Module ColumnarTable.

(** [columns_ : std::vector<std::vector<int>>]; a cell is an [int],
    which the code only stores and compares. *)
Abbreviation t := (list (list Z)).

(** [wrap] of a [size_t] counter. *)
Definition wrap (x : Z) : Z := (x mod 2 ^ 64)%Z.

(** [columns_.resize(n)]: the first [n] columns, filled up with empty
    ones. *)
Definition resize (n : nat) (columns_ : t) : t :=
  take n columns_ ++ replicate (n - length columns_) [].

(** [columns_[i].push_back(row[i])] *)
Definition push_cell (row : list Z) (columns_ : t) (i : nat) : t :=
  match row !! i with
  | Some cell => alter (fun col => col ++ [cell]) i columns_
  | None => columns_
  end.

Definition addRow (row : list Z) (columns_ : t) : t :=
  let columns1 :=
    match columns_ with
    | [] => resize (length row) columns_
    | _ :: _ => columns_
    end in
  let columns2 :=
    if (length columns1 <? length row)%nat then resize (length row) columns1
    else columns1 in
  foldl (push_cell row) columns2 (seq 0 (length row)).

(** The counting loop, shared by [filterLessThan] and the fallback of
    [filterLessThanGPU]: [if (cell < value) ++count;] *)
Definition count_less (value : Z) (col : list Z) : Z :=
  foldl (fun count cell => if (cell <? value)%Z then wrap (count + 1)
                           else count) 0%Z col.

Definition filterLessThan (colIndex : nat) (value : Z) (columns_ : t) : Z :=
  match columns_ !! colIndex with
  | None => 0%Z            (* [colIndex >= columns_.size()] *)
  | Some col => count_less value col
  end.

(** [columns_.at(colIndex)]; [None] is the [std::out_of_range] thrown. *)
Definition getColumn (colIndex : nat) (columns_ : t) : option (list Z) :=
  columns_ !! colIndex.

Definition getNumRows (columns_ : t) : nat :=
  match columns_ with
  | [] => 0
  | col0 :: _ => length col0
  end.

(** [GPUAcceleratedAnalytics::filterLessThanGPU] as built without
    [USE_CUDA]. *)
Definition filterLessThanGPU (col : list Z) (value : Z) : Z :=
  count_less value col.

(** A table after [addRow] for each row, in order, from an empty one. *)
Definition addRows (rows : list (list Z)) : t :=
  foldl (fun columns_ row => addRow row columns_) [] rows.

(** The widest row. *)
Definition width (rows : list (list Z)) : nat :=
  foldr (fun row w => Nat.max (length row) w) 0 rows.

(** A row with at least one cell. *)
Definition has_cells (row : list Z) : bool :=
  match row with [] => false | _ :: _ => true end.

(** A row whose [i]-th cell exists and is less than [value]. *)
Definition cell_less (i : nat) (value : Z) (row : list Z) : bool :=
  match row !! i with
  | Some cell => (cell <? value)%Z
  | None => false
  end.

End ColumnarTable.

(* ===================================================================== *)
(** * Properties                                                         *)
(* ===================================================================== *)

(** ** The key-value store *)

Module StoreFacts.
Import ConcurrentHashMap.

Lemma apply_all_snoc ops o m :
  apply_all (ops ++ [o]) m = apply o (apply_all ops m).
Proof. unfold apply_all. by rewrite foldl_app. Qed.

Lemma get_put_same k v m : get k (put k v m) = Some v.
Proof. unfold get, put. apply lookup_insert_eq. Qed.

Lemma get_put_other k k' v m : k' <> k -> get k (put k' v m) = get k m.
Proof. intros. unfold get, put. by apply lookup_insert_ne. Qed.

Lemma remove_store k m : snd (remove k m) = delete k m.
Proof. reflexivity. Qed.

Lemma remove_result k m : fst (remove k m) = true <-> is_Some (m !! k).
Proof.
  unfold remove, erase; simpl.
  destruct (m !! k) as [v|]; simpl; split; intros H.
  - by exists v.
  - reflexivity.
  - discriminate H.
  - by destruct H.
Qed.

Lemma get_remove_same k m : get k (snd (remove k m)) = None.
Proof. rewrite remove_store. unfold get. apply lookup_delete_eq. Qed.

Lemma get_remove_other k k' m :
  k' <> k -> get k (snd (remove k' m)) = get k m.
Proof. intros. rewrite remove_store. unfold get. by apply lookup_delete_ne. Qed.

(** Either no put of [k] occurs, or there is a last one. *)
Lemma last_put_split k ops :
  never_put k ops \/
  exists before v since,
    ops = before ++ Put k v :: since /\ never_put k since.
Proof.
  induction ops as [|o ops IH] using rev_ind.
  - left. constructor.
  - destruct o as [k' v'|k'].
    + destruct (decide (k' = k)) as [->|Hne].
      * right. exists ops, v', []. split; [done|constructor].
      * destruct IH as [IH|(b & v & s & -> & Hs)].
        -- left. apply Forall_app. split; [done|].
           constructor; [simpl; congruence|constructor].
        -- right. exists b, v, (s ++ [Put k' v']).
           split; [by rewrite <- app_assoc|].
           apply Forall_app. split; [done|].
           constructor; [simpl; congruence|constructor].
    + destruct IH as [IH|(b & v & s & -> & Hs)].
      * left. apply Forall_app. split; [done|].
        constructor; [simpl; tauto|constructor].
      * right. exists b, v, (s ++ [Remove k']).
        split; [by rewrite <- app_assoc|].
        apply Forall_app. split; [done|].
        constructor; [simpl; tauto|constructor].
Qed.

(** A history that ends in a put of [k] is not one in which [k] was
    removed since its last put. *)
Lemma not_removed_after_put k ops v :
  ~ removed_since_last_put k (ops ++ [Put k v]).
Proof.
  intros (b & v0 & s & Heq & Hnp & Hin).
  destruct s as [|o s] using rev_ind; [by destruct Hin|].
  rewrite app_comm_cons, app_assoc in Heq.
  apply app_inj_tail in Heq as [_ <-].
  apply Forall_app in Hnp as [_ Hnp].
  inversion Hnp as [|? ? Hbad _]; subst. by apply Hbad.
Qed.

(** Appending a mutation of another key changes neither side. *)
Lemma never_put_snoc_other k ops o :
  ~ is_put_of k o -> never_put k (ops ++ [o]) <-> never_put k ops.
Proof.
  intros Ho. unfold never_put. rewrite Forall_app. split.
  - by intros [? _].
  - intros H. split; [done|]. constructor; [done|constructor].
Qed.

Lemma removed_snoc_other k ops o :
  ~ touches k o ->
  removed_since_last_put k (ops ++ [o]) <-> removed_since_last_put k ops.
Proof.
  intros Ho.
  assert (Hnp : ~ is_put_of k o) by (destruct o; simpl in *; tauto).
  split.
  - intros (b & v & s & Heq & Hs & Hin).
    destruct s as [|o' s _] using rev_ind; [by destruct Hin|].
    rewrite app_comm_cons, app_assoc in Heq.
    apply app_inj_tail in Heq as [-> ->].
    exists b, v, s. split; [done|].
    apply Forall_app in Hs as [Hs _]. split; [done|].
    apply in_app_or in Hin as [Hin|[Hin|[]]]; [done|].
    subst. exfalso. by apply Ho.
  - intros (b & v & s & -> & Hs & Hin).
    exists b, v, (s ++ [o]). split; [by rewrite <- app_assoc|].
    split; [by apply never_put_snoc_other|].
    apply in_or_app. by left.
Qed.

Lemma absent_iff_history k ops :
  get k (apply_all ops ∅) = None <->
  never_put k ops \/ removed_since_last_put k ops.
Proof.
  induction ops as [|o ops IH] using rev_ind.
  - split; [|done]. intros _. left. constructor.
  - rewrite apply_all_snoc.
    destruct o as [k' v'|k']; cbn [apply].
    + destruct (decide (k' = k)) as [->|Hne].
      * rewrite get_put_same. split; [done|].
        intros [Hnp|Hrm].
        -- apply Forall_app in Hnp as [_ Hnp].
           inversion Hnp as [|? ? Hbad _]; subst. by destruct Hbad.
        -- by apply not_removed_after_put in Hrm.
      * rewrite get_put_other by done. rewrite IH.
        rewrite never_put_snoc_other by (simpl; congruence).
        rewrite removed_snoc_other by (simpl; congruence). done.
    + destruct (decide (k' = k)) as [->|Hne].
      * rewrite get_remove_same. split; [|done]. intros _.
        destruct (last_put_split k ops) as [Hnp|(b & v & s & -> & Hs)].
        -- left. apply never_put_snoc_other; [simpl; tauto|done].
        -- right. exists b, v, (s ++ [Remove k]).
           split; [by rewrite <- app_assoc|]. split.
           ++ apply never_put_snoc_other; [simpl; tauto|done].
           ++ apply in_or_app. right. by left.
      * rewrite get_remove_other by done. rewrite IH.
        rewrite never_put_snoc_other by (simpl; tauto).
        rewrite removed_snoc_other by (simpl; congruence). done.
Qed.

(** C7.  [put] upserts, so that [get] of the key then yields the value
    put, whatever the store held; on a store built from a fresh one by
    a history of puts and removes, [get] of a key is absent exactly when
    the key was never put or was removed since its last put; [remove]
    returns [true] exactly when the key was present just before the
    call, and the key is absent after it. *)
Theorem store_put_get_remove :
  (forall (m : gmap string string) k v, get k (put k v m) = Some v) /\
  (forall ops k,
     get k (apply_all ops ∅) = None <->
     never_put k ops \/ removed_since_last_put k ops) /\
  (forall (m : gmap string string) k,
     fst (remove k m) = true <-> is_Some (get k m)) /\
  (forall (m : gmap string string) k, get k (snd (remove k m)) = None).
Proof.
  split; [intros; apply get_put_same|].
  split; [intros; apply absent_iff_history|].
  split; [intros; apply remove_result|].
  intros; apply get_remove_same.
Qed.

End StoreFacts.

(** ** Strings and streams *)

Module StreamFacts.
Import IStream WriteAheadLog.

(** [+:+] does not unfold under [simpl]; its two equations. *)
Lemma append_nil_l (b : string) : EmptyString +:+ b = b.
Proof. reflexivity. Qed.

Lemma append_cons (x : ascii) (a b : string) :
  String x a +:+ b = String x (a +:+ b).
Proof. reflexivity. Qed.

Ltac unfold_append := rewrite ?append_cons, ?append_nil_l.

Lemma append_assoc (a b c : string) : (a +:+ b) +:+ c = a +:+ b +:+ c.
Proof.
  induction a as [|x a IH]; unfold_append; [done|by rewrite IH].
Qed.

Lemma append_nil_r (a : string) : a +:+ EmptyString = a.
Proof.
  induction a as [|x a IH]; unfold_append; [done|by rewrite IH].
Qed.

Lemma length_append (a b : string) :
  String.length (a +:+ b) = String.length a + String.length b.
Proof.
  induction a as [|x a IH]; unfold_append; simpl; [done|by rewrite IH].
Qed.

Lemma skip_ws_length s : String.length (skip_ws s) <= String.length s.
Proof.
  induction s as [|c s IH]; simpl; [done|].
  destruct (isspace c); simpl; lia.
Qed.

Lemma take_word_length s :
  String.length (fst (take_word s)) + String.length (snd (take_word s))
  = String.length s.
Proof.
  induction s as [|c s IH]; simpl; [done|].
  destruct (isspace c); simpl; [done|].
  destruct (take_word s) as [w r]; simpl in *. lia.
Qed.

Lemma take_word_nonempty c s :
  isspace c = false ->
  String.length (snd (take_word (String c s))) < String.length (String c s).
Proof.
  intros Hc. pose proof (take_word_length s) as Hl.
  simpl. rewrite Hc. destruct (take_word s) as [w r]; simpl in *. lia.
Qed.

Lemma skip_ws_head s c s' : skip_ws s = String c s' -> isspace c = false.
Proof.
  induction s as [|x s IH]; simpl; [done|].
  destruct (isspace x) eqn:Hx; [done|]. by intros [= <- _].
Qed.

(** The three ways an extraction can go. *)
Lemma extract_cases ins str :
  (failbit ins = true /\ extract ins str = (ins, str)) \/
  (failbit ins = false /\ skip_ws (rest ins) = EmptyString /\
   extract ins str = ({| rest := EmptyString; failbit := true |}, str)) \/
  (failbit ins = false /\
   exists c s', skip_ws (rest ins) = String c s' /\
     extract ins str
     = ({| rest := snd (take_word (String c s')); failbit := false |},
        fst (take_word (String c s')))).
Proof.
  unfold extract. destruct (failbit ins); [by left|right].
  destruct (skip_ws (rest ins)) as [|c s'] eqn:E; [by left|right].
  split; [done|]. exists c, s'. split; [done|].
  by destruct (take_word (String c s')).
Qed.

(** An extraction never gives bytes back. *)
Lemma extract_rest_le ins str :
  String.length (rest (fst (extract ins str))) <= String.length (rest ins).
Proof.
  pose proof (skip_ws_length (rest ins)) as Hs.
  destruct (extract_cases ins str)
    as [[_ ->]|[(_ & _ & ->)|(_ & c & s' & E & ->)]].
  - done.
  - simpl. lia.
  - pose proof (take_word_nonempty c s' (skip_ws_head _ _ _ E)) as Hw.
    rewrite E in Hs. set (p := take_word _) in *. simpl. lia.
Qed.

(** An extraction that leaves the stream good has consumed a byte. *)
Lemma extract_good_lt ins str :
  failbit (fst (extract ins str)) = false ->
  String.length (rest (fst (extract ins str))) < String.length (rest ins).
Proof.
  pose proof (skip_ws_length (rest ins)) as Hs.
  destruct (extract_cases ins str)
    as [[Hf ->]|[(_ & _ & ->)|(_ & c & s' & E & ->)]].
  - simpl. congruence.
  - done.
  - intros _.
    pose proof (take_word_nonempty c s' (skip_ws_head _ _ _ E)) as Hw.
    rewrite E in Hs. set (p := take_word _) in *. simpl. lia.
Qed.

Lemma extract_failed r str :
  extract {| rest := r; failbit := true |} str
  = ({| rest := r; failbit := true |}, str).
Proof. reflexivity. Qed.

Lemma skip_ws_all_space w s :
  all_space w = true -> skip_ws (w +:+ s) = skip_ws s.
Proof.
  induction w as [|c w IH]; unfold_append; simpl; [done|].
  destruct (isspace c); simpl; [exact IH|done].
Qed.

Lemma skip_ws_token tok s :
  is_token tok = true -> skip_ws (tok +:+ s) = tok +:+ s.
Proof.
  destruct tok as [|c tok]; unfold_append; simpl; [done|].
  destruct (isspace c); simpl; done.
Qed.

Lemma take_word_token tok s :
  no_space tok = true -> ends_word s = true ->
  take_word (tok +:+ s) = (tok, s).
Proof.
  intros Ht Hs. induction tok as [|c tok IH]; unfold_append; simpl in *.
  - destruct s as [|x s]; simpl in *; [done|]. by rewrite Hs.
  - apply andb_true_iff in Ht as [Hc Ht].
    apply negb_true_iff in Hc. rewrite Hc, (IH Ht). done.
Qed.

Lemma is_token_no_space tok : is_token tok = true -> no_space tok = true.
Proof. by destruct tok. Qed.

(** Reading a token that is preceded by whitespace and followed by
    whitespace or the end. *)
Lemma extract_token w tok s str :
  all_space w = true -> is_token tok = true -> ends_word s = true ->
  extract (open (w +:+ tok +:+ s)) str = (open s, tok).
Proof.
  intros Hw Ht Hs. unfold extract, open. cbn [failbit rest].
  rewrite (skip_ws_all_space _ _ Hw), (skip_ws_token _ _ Ht).
  pose proof (take_word_token _ _ (is_token_no_space _ Ht) Hs) as Hword.
  destruct tok as [|c tok]; [done|].
  rewrite append_cons in *. cbv beta iota. by rewrite Hword.
Qed.

(** Reading when only whitespace is left: the sentry fails. *)
Lemma extract_eof w str :
  all_space w = true ->
  extract (open w) str
  = ({| rest := EmptyString; failbit := true |}, str).
Proof.
  intros Hw. unfold extract, open. cbn [failbit rest].
  rewrite <- (append_nil_r w), (skip_ws_all_space _ _ Hw). done.
Qed.

End StreamFacts.

(** ** The write-ahead log *)

Module WalFacts.
Import IStream WriteAheadLog StreamFacts.
Module CHM := ConcurrentHashMap.

(** One iteration of the loop, by cases: the stream fails on [cmd] (the
    goal with [failbit _ = true]), or the body runs one of its three
    branches, each time on a stream that holds fewer bytes than before
    (the hypotheses the tactic leaves about the lengths). *)
Ltac read_one ins :=
  let L := fresh "Hle" in
  pose proof (extract_rest_le ins EmptyString) as L;
  destruct (extract ins EmptyString) as [? ?]; cbn [fst] in L.

Ltac loop_cases ins cmd :=
  let Hlt := fresh "Hlt" in
  let Hf := fresh "Hfail" in
  pose proof (extract_good_lt ins cmd) as Hlt;
  destruct (extract ins cmd) as [?ins1 ?cmd1]; cbn [fst] in Hlt;
  destruct (failbit ins1) eqn:Hf;
  [ | specialize (Hlt eq_refl);
      destruct (String.eqb cmd1 "PUT");
      [ read_one ins1;
        match goal with
        | |- context [extract ?i EmptyString] => read_one i
        end
      | destruct (String.eqb cmd1 "REMOVE"); [ read_one ins1 | ] ] ].

(** Any fuel above the number of bytes left gives the same result. *)
Lemma replay_loop_fuel fuel1 : forall fuel2 ins cmd st,
  String.length (rest ins) < fuel1 ->
  String.length (rest ins) < fuel2 ->
  replay_loop fuel1 ins cmd st = replay_loop fuel2 ins cmd st.
Proof.
  induction fuel1 as [|f1 IH]; intros [|f2] ins cmd st H1 H2; try lia.
  cbn [replay_loop]. loop_cases ins cmd; [done|apply IH; lia..].
Qed.

(** With that fuel the loop leaves: it never runs out. *)
Lemma replay_loop_leaves fuel : forall ins cmd st,
  String.length (rest ins) < fuel ->
  is_Some (replay_loop fuel ins cmd st).
Proof.
  induction fuel as [|f IH]; intros ins cmd st H; [lia|].
  cbn [replay_loop]. loop_cases ins cmd; [by eexists|apply IH; lia..].
Qed.

Lemma replay_total file st : is_Some (replay file st).
Proof. apply replay_loop_leaves. simpl. lia. Qed.

Lemma replay_is_replay_from file st :
  replay file st = replay_from (open file) EmptyString st.
Proof. reflexivity. Qed.

(** The loop body, free of fuel. *)
Lemma replay_from_unfold ins cmd st :
  replay_from ins cmd st =
  let '(ins1, cmd1) := extract ins cmd in
  if failbit ins1 then Some st
  else if String.eqb cmd1 "PUT" then
    let '(ins2, key) := extract ins1 EmptyString in
    let '(ins3, value) := extract ins2 EmptyString in
    replay_from ins3 cmd1 (CHM.put key value st)
  else if String.eqb cmd1 "REMOVE" then
    let '(ins2, key) := extract ins1 EmptyString in
    replay_from ins2 cmd1 (snd (CHM.remove key st))
  else replay_from ins1 cmd1 st.
Proof.
  unfold replay_from at 1. cbn [replay_loop].
  loop_cases ins cmd; [done|apply replay_loop_fuel; lia..].
Qed.

(** Once the stream has failed, or only whitespace is left, the loop
    leaves with the store as it is. *)
Lemma replay_from_failed r cmd st :
  replay_from {| rest := r; failbit := true |} cmd st = Some st.
Proof. by rewrite replay_from_unfold, extract_failed. Qed.

Lemma replay_from_eof w cmd st :
  all_space w = true -> replay_from (open w) cmd st = Some st.
Proof. intros Hw. by rewrite replay_from_unfold, (extract_eof _ _ Hw). Qed.

Lemma space_is_space : isspace " " = true.
Proof. reflexivity. Qed.

Lemma nl_all_space : all_space nl = true.
Proof. reflexivity. Qed.

(** One whole [PUT] record at the head of the stream. *)
Lemma replay_from_put w k v tail cmd st :
  all_space w = true -> is_token k = true -> is_token v = true ->
  ends_word tail = true ->
  replay_from (open (w +:+ "PUT " +:+ k +:+ " " +:+ v +:+ tail)) cmd st
  = replay_from (open tail) "PUT" (CHM.put k v st).
Proof.
  intros Hw Hk Hv Ht. rewrite replay_from_unfold.
  change ("PUT " +:+ k +:+ " " +:+ v +:+ tail)
    with ("PUT" +:+ " " +:+ k +:+ " " +:+ v +:+ tail).
  rewrite (extract_token w "PUT") by done.
  cbn [failbit open]. rewrite String.eqb_refl.
  rewrite (extract_token " " k) by done.
  rewrite (extract_token " " v) by done.
  reflexivity.
Qed.

(** One whole [REMOVE] record at the head of the stream. *)
Lemma replay_from_remove w k tail cmd st :
  all_space w = true -> is_token k = true -> ends_word tail = true ->
  replay_from (open (w +:+ "REMOVE " +:+ k +:+ tail)) cmd st
  = replay_from (open tail) "REMOVE" (snd (CHM.remove k st)).
Proof.
  intros Hw Hk Ht. rewrite replay_from_unfold.
  change ("REMOVE " +:+ k +:+ tail) with ("REMOVE" +:+ " " +:+ k +:+ tail).
  rewrite (extract_token w "REMOVE") by done.
  cbn [failbit open].
  replace (String.eqb "REMOVE" "PUT") with false by reflexivity.
  rewrite String.eqb_refl.
  rewrite (extract_token " " k) by done.
  reflexivity.
Qed.

(** The text that a sequence of mutations adds to a log. *)
Lemma log_from o file : log o file = file +:+ log o EmptyString.
Proof. by destruct o. Qed.

Lemma log_all_from ops : forall file,
  log_all ops file = file +:+ log_all ops EmptyString.
Proof.
  induction ops as [|o ops IH]; intros file.
  - by rewrite append_nil_r.
  - change (log_all (o :: ops) file) with (log_all ops (log o file)).
    change (log_all (o :: ops) EmptyString)
      with (log_all ops (log o EmptyString)).
    rewrite (IH (log o file)), (IH (log o EmptyString)).
    by rewrite (log_from o file), append_assoc.
Qed.

(** Replaying the records of a sequence of token mutations that are
    followed by [tail]: the mutations are applied in order, and the loop
    goes on with [tail] behind some whitespace. *)
Lemma replay_from_records ops : forall w tail cmd st,
  Forall (fun o => op_tokens o = true) ops ->
  all_space w = true ->
  exists w' cmd',
    all_space w' = true /\
    replay_from (open (w +:+ log_all ops EmptyString +:+ tail)) cmd st
    = replay_from (open (w' +:+ tail)) cmd' (CHM.apply_all ops st).
Proof.
  induction ops as [|o ops IH]; intros w tail cmd st Hops Hw.
  - exists w, cmd. split; [done|]. reflexivity.
  - inversion Hops as [|? ? Ho Hops']; subst.
    change (log_all (o :: ops) EmptyString)
      with (log_all ops (log o EmptyString)).
    rewrite log_all_from, append_assoc.
    change (CHM.apply_all (o :: ops) st)
      with (CHM.apply_all ops (CHM.apply o st)).
    destruct o as [k v|k]; cbn [op_tokens] in Ho.
    + apply andb_true_iff in Ho as [Hk Hv].
      change (log (CHM.Put k v) EmptyString)
        with ("PUT " +:+ k +:+ " " +:+ v +:+ nl).
      rewrite !append_assoc.
      rewrite replay_from_put by done.
      apply (IH nl tail "PUT"); done.
    + change (log (CHM.Remove k) EmptyString) with ("REMOVE " +:+ k +:+ nl).
      rewrite !append_assoc.
      rewrite replay_from_remove by done.
      apply (IH nl tail "REMOVE"); done.
Qed.

(** C1, as amended.  For every finite sequence of put/remove operations
    whose keys and values are non-empty and free of whitespace, logging
    each operation with [logPut]/[logRemove] into an empty log file and
    replaying the file into a fresh store ends (the loop leaves) with the
    same key-to-value mapping as applying the operations to a fresh store
    directly. *)
Theorem wal_round_trip_tokens (ops : list CHM.op) :
  Forall (fun o => op_tokens o = true) ops ->
  replay (log_all ops EmptyString) ∅ = Some (CHM.apply_all ops ∅).
Proof.
  intros Hops. rewrite replay_is_replay_from.
  destruct (replay_from_records ops EmptyString EmptyString EmptyString ∅)
    as (w' & cmd' & Hw' & Heq); [done..|].
  rewrite append_nil_l, append_nil_r in Heq. rewrite Heq.
  rewrite append_nil_r. by apply replay_from_eof.
Qed.

Lemma wal_round_trip_tokens_witness :
  Forall (fun o => op_tokens o = true)
    [CHM.Put "K1" "V1"; CHM.Remove "K2"; CHM.Put "PUT" "REMOVE";
     CHM.Remove "K1"] /\
  replay
    (log_all [CHM.Put "K1" "V1"; CHM.Remove "K2"; CHM.Put "PUT" "REMOVE";
              CHM.Remove "K1"] EmptyString) ∅
  = Some (CHM.apply_all
            [CHM.Put "K1" "V1"; CHM.Remove "K2"; CHM.Put "PUT" "REMOVE";
             CHM.Remove "K1"] ∅).
Proof.
  split.
  - repeat constructor.
  - apply wal_round_trip_tokens. repeat constructor.
Defined.

(** C1 as stated fails for a key that contains a space: [put("a b","c")]
    is logged as the line [PUT a b c], which replays as [put("a","b")]
    followed by the ignored word [c]. *)
Lemma wal_round_trip_breaks_on_space :
  replay (log_all [CHM.Put "a b" "c"] EmptyString) ∅
    = Some (<["a" := "b"]> ∅) /\
  CHM.apply_all [CHM.Put "a b" "c"] ∅ = <["a b" := "c"]> ∅ /\
  replay (log_all [CHM.Put "a b" "c"] EmptyString) ∅
    <> Some (CHM.apply_all [CHM.Put "a b" "c"] ∅).
Proof.
  split; [by vm_compute|]. split; [by vm_compute|].
  intros H. apply (f_equal (fun o => o ≫= (fun m => m !! "a"))) in H.
  vm_compute in H. discriminate H.
Qed.

(** The same failure for an empty value, as the command handler can
    produce it: the record [PUT k ] swallows the next record's word. *)
Example wal_round_trip_breaks_on_empty_value :
  replay (log_all [CHM.Put "k" EmptyString; CHM.Put "j" "v"] EmptyString) ∅
  = Some (<["k" := "PUT"]> ∅).
Proof. by vm_compute. Qed.

(** C2, as amended.  For every log file that consists of the records of
    complete mutations (token keys and values) followed by a record cut
    short ([PUT] with no or one argument, [REMOVE] with none) and
    possibly trailing whitespace, [replay] applies every complete record
    in file order, then applies the short record too, with each missing
    argument taken as the empty string, and then leaves the loop; it does
    not fail. *)
Theorem replay_truncated_tail (ops : list CHM.op) (t : truncated)
    (ws : string) (st : gmap string string) :
  Forall (fun o => op_tokens o = true) ops ->
  truncated_tokens t = true ->
  all_space ws = true ->
  replay (log_all ops EmptyString +:+ truncated_text t +:+ ws) st
  = Some (CHM.apply (truncated_effect t) (CHM.apply_all ops st)).
Proof.
  intros Hops Ht Hws. rewrite replay_is_replay_from.
  destruct (replay_from_records ops EmptyString
              (truncated_text t +:+ ws) EmptyString st)
    as (w' & cmd' & Hw' & Heq); [done..|].
  rewrite append_nil_l in Heq. rewrite Heq. clear Heq.
  rewrite replay_from_unfold.
  assert (Hend : ends_word ws = true) by (by destruct ws as [|c ws]; [|simpl in *; destruct (isspace c)]).
  destruct t as [|key|]; cbn [truncated_text truncated_effect CHM.apply].
  - rewrite (extract_token w' "PUT" ws) by done.
    cbn [failbit open]. rewrite String.eqb_refl.
    rewrite (extract_eof ws) by done. rewrite extract_failed.
    apply replay_from_failed.
  - change ("PUT " +:+ key) with ("PUT" +:+ " " +:+ key).
    rewrite !append_assoc.
    rewrite (extract_token w' "PUT") by done.
    cbn [failbit open]. rewrite String.eqb_refl.
    rewrite (extract_token " " key ws) by done.
    rewrite (extract_eof ws) by done.
    apply replay_from_failed.
  - rewrite (extract_token w' "REMOVE" ws) by done.
    cbn [failbit open].
    replace (String.eqb "REMOVE" "PUT") with false by reflexivity.
    rewrite String.eqb_refl.
    rewrite (extract_eof ws) by done.
    apply replay_from_failed.
Qed.

Lemma replay_truncated_tail_witness :
  replay (log_all [CHM.Put "a" "1"; CHM.Remove "c"] EmptyString
          +:+ truncated_text (PutKeyOnly "b") +:+ " ") (<["c" := "3"]> ∅)
  = Some (CHM.apply (truncated_effect (PutKeyOnly "b"))
            (CHM.apply_all [CHM.Put "a" "1"; CHM.Remove "c"]
               (<["c" := "3"]> ∅))).
Proof.
  apply replay_truncated_tail.
  - repeat constructor.
  - reflexivity.
  - reflexivity.
Defined.

(** C2 as stated fails: after the complete record [PUT a 1], the short
    record [PUT b] is applied as [put("b","")], so the store holds [b]. *)
Lemma replay_applies_truncated_put :
  replay (log_all [CHM.Put "a" "1"] EmptyString
          +:+ truncated_text (PutKeyOnly "b")) ∅
    = Some (<["b" := EmptyString]> (<["a" := "1"]> ∅)) /\
  replay (log_all [CHM.Put "a" "1"] EmptyString
          +:+ truncated_text (PutKeyOnly "b")) ∅
    <> Some (CHM.apply_all [CHM.Put "a" "1"] ∅).
Proof.
  split; [by vm_compute|].
  intros H. apply (f_equal (fun o => o ≫= (fun m => m !! "b"))) in H.
  vm_compute in H. discriminate H.
Qed.

End WalFacts.

(** ** The command handler *)

Module NodeFacts.
Import IStream WriteAheadLog StreamFacts DistributedNode.

Lemma request_not_empty w tok tail :
  is_token tok = true ->
  (0 <? String.length (w +:+ tok +:+ tail))%nat = true.
Proof.
  intros Ht. destruct tok as [|c tok]; [done|].
  rewrite !length_append. simpl. apply Nat.ltb_lt. lia.
Qed.

(** The handler on a request whose first word is [cmd]: the branch is
    chosen by [cmd], and the arguments are read from what follows. *)
Lemma handleClient_leading_word n w cmd tail :
  all_space w = true -> is_token cmd = true -> ends_word tail = true ->
  handleClient n (w +:+ cmd +:+ tail) =
  if String.eqb cmd "PUT" then
    let '(iss2, key) := extract (open tail) EmptyString in
    let '(iss3, value) := extract iss2 EmptyString in
    {| after := put key value n; sent := []; closed := true |}
  else if String.eqb cmd "REMOVE" then
    let '(iss2, key) := extract (open tail) EmptyString in
    {| after := removeKey key n; sent := []; closed := true |}
  else if String.eqb cmd "GET" then
    let '(iss2, key) := extract (open tail) EmptyString in
    match get key n with
    | Some val =>
        {| after := n; sent := ["VALUE " +:+ val +:+ nl]; closed := true |}
    | None =>
        {| after := n; sent := ["NOT_FOUND" +:+ nl]; closed := true |}
    end
  else {| after := n; sent := []; closed := true |}.
Proof.
  intros Hw Hc Ht. unfold handleClient.
  rewrite (request_not_empty w cmd tail Hc).
  by rewrite (extract_token w cmd tail EmptyString Hw Hc Ht).
Qed.

(** The handler on a request without any word. *)
Lemma handleClient_no_word n w :
  all_space w = true ->
  handleClient n w = {| after := n; sent := []; closed := true |}.
Proof.
  intros Hw. unfold handleClient.
  destruct (0 <? String.length w)%nat; [|done].
  by rewrite (extract_eof w EmptyString Hw).
Qed.

Lemma handleClient_closes n request :
  closed (handleClient n request) = true.
Proof.
  unfold handleClient.
  destruct (0 <? String.length request)%nat; [|done].
  destruct (extract (open request) EmptyString) as [iss1 cmd].
  destruct (String.eqb cmd "PUT").
  { destruct (extract iss1 EmptyString) as [iss2 key].
    by destruct (extract iss2 EmptyString). }
  destruct (String.eqb cmd "REMOVE").
  { by destruct (extract iss1 EmptyString). }
  destruct (String.eqb cmd "GET"); [|done].
  destruct (extract iss1 EmptyString) as [iss2 key].
  by destruct (get key n).
Qed.

Lemma handleClient_get n w key tail :
  all_space w = true -> is_token key = true -> ends_word tail = true ->
  handleClient n (w +:+ "GET " +:+ key +:+ tail) =
  {| after := n;
     sent := match get key n with
             | Some val => ["VALUE " +:+ val +:+ nl]
             | None => ["NOT_FOUND" +:+ nl]
             end;
     closed := true |}.
Proof.
  intros Hw Hk Ht.
  change ("GET " +:+ key +:+ tail) with ("GET" +:+ " " +:+ key +:+ tail).
  rewrite handleClient_leading_word by done.
  replace (String.eqb "GET" "PUT") with false by reflexivity.
  replace (String.eqb "GET" "REMOVE") with false by reflexivity.
  rewrite String.eqb_refl.
  rewrite (extract_token " " key tail) by done.
  by destruct (get key n).
Qed.

Lemma handleClient_put n w key value tail :
  all_space w = true -> is_token key = true -> is_token value = true ->
  ends_word tail = true ->
  handleClient n (w +:+ "PUT " +:+ key +:+ " " +:+ value +:+ tail) =
  {| after := put key value n; sent := []; closed := true |}.
Proof.
  intros Hw Hk Hv Ht.
  change ("PUT " +:+ key +:+ " " +:+ value +:+ tail)
    with ("PUT" +:+ " " +:+ key +:+ " " +:+ value +:+ tail).
  rewrite handleClient_leading_word by done.
  rewrite String.eqb_refl.
  rewrite (extract_token " " key) by done.
  by rewrite (extract_token " " value tail) by done.
Qed.

Lemma handleClient_remove n w key tail :
  all_space w = true -> is_token key = true -> ends_word tail = true ->
  handleClient n (w +:+ "REMOVE " +:+ key +:+ tail) =
  {| after := removeKey key n; sent := []; closed := true |}.
Proof.
  intros Hw Hk Ht.
  change ("REMOVE " +:+ key +:+ tail)
    with ("REMOVE" +:+ " " +:+ key +:+ tail).
  rewrite handleClient_leading_word by done.
  replace (String.eqb "REMOVE" "PUT") with false by reflexivity.
  rewrite String.eqb_refl.
  by rewrite (extract_token " " key tail) by done.
Qed.

Lemma handleClient_other n w cmd tail :
  all_space w = true -> is_token cmd = true -> ends_word tail = true ->
  cmd <> "PUT" -> cmd <> "REMOVE" -> cmd <> "GET" ->
  handleClient n (w +:+ cmd +:+ tail) =
  {| after := n; sent := []; closed := true |}.
Proof.
  intros Hw Hc Ht H1 H2 H3.
  rewrite handleClient_leading_word by done.
  apply String.eqb_neq in H1, H2, H3. by rewrite H1, H2, H3.
Qed.

(** C6.  The response to one received command line.  [GET <key>] sends
    [VALUE <value>\n] when the key is present and [NOT_FOUND\n] when it
    is absent, and nothing else; [PUT <key> <value>] and [REMOVE <key>]
    send nothing; a request with another leading word, or with none,
    sends nothing and leaves the node as it was; the connection is
    closed after every request.  A command line may be preceded by
    whitespace [w], and ends at [tail]: the end of the request or a
    whitespace character (the newline) and whatever follows it. *)
Theorem handleClient_response (n : node) :
  (forall request, closed (handleClient n request) = true) /\
  (forall w key tail val,
     all_space w = true -> is_token key = true -> ends_word tail = true ->
     get key n = Some val ->
     sent (handleClient n (w +:+ "GET " +:+ key +:+ tail))
     = ["VALUE " +:+ val +:+ nl]) /\
  (forall w key tail,
     all_space w = true -> is_token key = true -> ends_word tail = true ->
     get key n = None ->
     sent (handleClient n (w +:+ "GET " +:+ key +:+ tail))
     = ["NOT_FOUND" +:+ nl]) /\
  (forall w key value tail,
     all_space w = true -> is_token key = true -> is_token value = true ->
     ends_word tail = true ->
     sent (handleClient n (w +:+ "PUT " +:+ key +:+ " " +:+ value +:+ tail))
     = []) /\
  (forall w key tail,
     all_space w = true -> is_token key = true -> ends_word tail = true ->
     sent (handleClient n (w +:+ "REMOVE " +:+ key +:+ tail)) = []) /\
  (forall w cmd tail,
     all_space w = true -> is_token cmd = true -> ends_word tail = true ->
     cmd <> "PUT" -> cmd <> "REMOVE" -> cmd <> "GET" ->
     sent (handleClient n (w +:+ cmd +:+ tail)) = [] /\
     after (handleClient n (w +:+ cmd +:+ tail)) = n) /\
  (forall w,
     all_space w = true ->
     sent (handleClient n w) = [] /\ after (handleClient n w) = n).
Proof.
  split; [apply handleClient_closes|].
  split.
  { intros w key tail val Hw Hk Ht Hget.
    rewrite handleClient_get by done. cbn [sent]. by rewrite Hget. }
  split.
  { intros w key tail Hw Hk Ht Hget.
    rewrite handleClient_get by done. cbn [sent]. by rewrite Hget. }
  split.
  { intros. by rewrite handleClient_put. }
  split.
  { intros. by rewrite handleClient_remove. }
  split.
  { intros. by rewrite handleClient_other. }
  intros. by rewrite handleClient_no_word.
Qed.

Lemma handleClient_response_witness :
  let n := {| dataStore_ := <["IBM" := "140.25"]> ∅; wal_ := EmptyString |} in
  sent (handleClient n ("GET IBM" +:+ nl)) = ["VALUE 140.25" +:+ nl] /\
  sent (handleClient n ("GET AAPL" +:+ nl)) = ["NOT_FOUND" +:+ nl] /\
  sent (handleClient n ("PUT AAPL 179.33" +:+ nl)) = [] /\
  sent (handleClient n ("REMOVE IBM" +:+ nl)) = [] /\
  (sent (handleClient n ("DELETE IBM" +:+ nl)) = [] /\
   after (handleClient n ("DELETE IBM" +:+ nl)) = n) /\
  closed (handleClient n ("GET IBM" +:+ nl)) = true.
Proof.
  intros n.
  destruct (handleClient_response n)
    as (Hclose & Hfound & Habsent & Hput & Hremove & Hother & _).
  split; [exact (Hfound EmptyString "IBM" nl "140.25"
                   eq_refl eq_refl eq_refl eq_refl)|].
  split; [exact (Habsent EmptyString "AAPL" nl eq_refl eq_refl eq_refl
                   eq_refl)|].
  split; [exact (Hput EmptyString "AAPL" "179.33" nl eq_refl eq_refl
                   eq_refl eq_refl)|].
  split; [exact (Hremove EmptyString "IBM" nl eq_refl eq_refl eq_refl)|].
  split; [|exact (Hclose _)].
  apply (Hother EmptyString "DELETE" (" IBM" +:+ nl)); done.
Defined.

(** C10.  A command with missing arguments is handled like any other:
    [PUT <key>] without a value puts the empty value and logs the record
    [PUT <key> ] with nothing after the second space; [PUT] alone puts
    the empty key with the empty value and logs it; [REMOVE] alone
    removes the empty key and logs it; [GET] alone answers for the empty
    key.  [ws] is what follows the last word: whitespace or nothing. *)
Theorem handleClient_missing_arguments (n : node) (ws : string) :
  all_space ws = true ->
  (forall key,
     is_token key = true ->
     dataStore_ (after (handleClient n ("PUT " +:+ key +:+ ws)))
       = <[key := EmptyString]> (dataStore_ n) /\
     wal_ (after (handleClient n ("PUT " +:+ key +:+ ws)))
       = wal_ n +:+ "PUT " +:+ key +:+ " " +:+ nl) /\
  (dataStore_ (after (handleClient n ("PUT" +:+ ws)))
     = <[EmptyString := EmptyString]> (dataStore_ n) /\
   wal_ (after (handleClient n ("PUT" +:+ ws)))
     = wal_ n +:+ "PUT  " +:+ nl) /\
  (dataStore_ (after (handleClient n ("REMOVE" +:+ ws)))
     = delete EmptyString (dataStore_ n) /\
   wal_ (after (handleClient n ("REMOVE" +:+ ws)))
     = wal_ n +:+ "REMOVE " +:+ nl) /\
  sent (handleClient n ("GET" +:+ ws))
    = match dataStore_ n !! EmptyString with
      | Some val => ["VALUE " +:+ val +:+ nl]
      | None => ["NOT_FOUND" +:+ nl]
      end.
Proof.
  intros Hws.
  assert (Hend : ends_word ws = true).
  { destruct ws as [|c ws]; [done|]. simpl in *. by destruct (isspace c). }
  pose proof (handleClient_leading_word n EmptyString) as Hlead.
  setoid_rewrite append_nil_l in Hlead.
  split; [intros key Hk|split; [|split]].
  - change ("PUT " +:+ key +:+ ws) with ("PUT" +:+ " " +:+ key +:+ ws).
    rewrite Hlead by done. rewrite String.eqb_refl.
    rewrite (extract_token " " key ws) by done.
    rewrite (extract_eof ws) by done. done.
  - rewrite Hlead by done. rewrite String.eqb_refl.
    rewrite (extract_eof ws) by done. rewrite extract_failed. done.
  - rewrite Hlead by done.
    replace (String.eqb "REMOVE" "PUT") with false by reflexivity.
    rewrite String.eqb_refl.
    rewrite (extract_eof ws) by done. done.
  - rewrite Hlead by done.
    replace (String.eqb "GET" "PUT") with false by reflexivity.
    replace (String.eqb "GET" "REMOVE") with false by reflexivity.
    rewrite String.eqb_refl.
    rewrite (extract_eof ws) by done. unfold get, ConcurrentHashMap.get.
    by destruct (dataStore_ n !! EmptyString).
Qed.

Lemma handleClient_missing_arguments_witness :
  dataStore_
    (after (handleClient {| dataStore_ := ∅; wal_ := EmptyString |}
              ("PUT " +:+ "k" +:+ nl)))
    = <["k" := EmptyString]> ∅ /\
  wal_
    (after (handleClient {| dataStore_ := ∅; wal_ := EmptyString |}
              ("PUT " +:+ "k" +:+ nl)))
    = EmptyString +:+ "PUT " +:+ "k" +:+ " " +:+ nl.
Proof.
  apply (handleClient_missing_arguments
           {| dataStore_ := ∅; wal_ := EmptyString |} nl eq_refl).
  reflexivity.
Defined.

(** What C10 leads to: the record logged for [PUT k] has no value, so on
    the next start the log replays the words of the record after it as
    the value. *)
Example missing_value_corrupts_replay :
  WriteAheadLog.replay
    (wal_ (after (handleClient
                    (after (handleClient
                              {| dataStore_ := ∅; wal_ := EmptyString |}
                              ("PUT k" +:+ nl)))
                    ("PUT j v" +:+ nl)))) ∅
  = Some (<["k" := "PUT"]> ∅).
Proof. by vm_compute. Qed.

End NodeFacts.

(** ** The consistent-hash ring *)

Module RingFacts.
Import ConsistentHashRing.

(** *** The ordered map *)

Lemma ascending_cons h n m :
  ascending ((h, n) :: m) <->
  (forall h' n', In (h', n') m -> (h < h')%N) /\ ascending m.
Proof.
  revert h n. induction m as [|[h1 n1] m IH]; intros h n.
  - simpl. split; [intros _; split; [by intros ? ? []|done]|done].
  - change (ascending ((h, n) :: (h1, n1) :: m))
      with ((h < h1)%N /\ ascending ((h1, n1) :: m)).
    rewrite (IH h1 n1). split.
    + intros (Hlt & Hall & Hasc). split; [|by split].
      intros h' n' [[= <- <-]|Hin]; [done|].
      specialize (Hall _ _ Hin). lia.
    + intros (Hall & Hall1 & Hasc). split; [|by split].
      apply (Hall h1 n1). by left.
Qed.

Lemma find_In m h n : ascending m -> find h m = Some n <-> In (h, n) m.
Proof.
  induction m as [|[h1 n1] m IH]; intros Hasc; simpl; [by split|].
  apply ascending_cons in Hasc as [Hall Hasc].
  destruct (N.eqb_spec h h1) as [->|Hne].
  - split.
    + intros [= ->]. by left.
    + intros [[= ->]|Hin]; [done|]. specialize (Hall _ _ Hin). lia.
  - rewrite (IH Hasc). split; [by right|].
    intros [[= <- <-]|Hin]; done.
Qed.

Lemma find_assign h n m h' :
  find h' (assign h n m) = if (h' =? h)%N then Some n else find h' m.
Proof.
  induction m as [|[h1 n1] m IH]; simpl; [done|].
  destruct (N.ltb_spec h h1) as [Hlt|Hge]; simpl.
  - done.
  - destruct (N.eqb_spec h h1) as [->|Hne]; simpl.
    + by destruct (N.eqb_spec h' h1).
    + rewrite IH. destruct (N.eqb_spec h' h1) as [->|]; [|done].
      by destruct (N.eqb_spec h1 h).
Qed.

Lemma In_assign h n m h' n' :
  In (h', n') (assign h n m) -> (h' = h /\ n' = n) \/ In (h', n') m.
Proof.
  induction m as [|[h1 n1] m IH]; simpl.
  - intros [[= <- <-]|[]]. by left.
  - destruct (h <? h1)%N; [|destruct (h =? h1)%N]; simpl.
    + intros [[= <- <-]|Hin]; [by left|by right].
    + intros [[= <- <-]|Hin]; [by left|right; by right].
    + intros [Heq|Hin]; [right; by left|].
      destruct (IH Hin) as [?|?]; [by left|right; by right].
Qed.

Lemma ascending_assign h n m : ascending m -> ascending (assign h n m).
Proof.
  induction m as [|[h1 n1] m IH]; intros Hasc; simpl; [done|].
  pose proof Hasc as Hasc0.
  apply ascending_cons in Hasc as [Hall Hasc].
  destruct (N.ltb_spec h h1) as [Hlt|Hge].
  - apply ascending_cons. split; [|done].
    intros h' n' [[= <- <-]|Hin]; [done|]. specialize (Hall _ _ Hin). lia.
  - destruct (N.eqb_spec h h1) as [->|Hne].
    + apply ascending_cons. by split.
    + apply ascending_cons. split; [|by apply IH].
      intros h' n' Hin. apply In_assign in Hin as [[-> _]|Hin]; [lia|].
      by apply (Hall _ _ Hin).
Qed.

Lemma In_erase h m p : In p (erase h m) -> In p m.
Proof.
  induction m as [|[h1 n1] m IH]; simpl; [done|].
  destruct (h =? h1)%N; simpl; [by right|].
  intros [?|?]; [by left|right; by apply IH].
Qed.

Lemma ascending_erase h m : ascending m -> ascending (erase h m).
Proof.
  induction m as [|[h1 n1] m IH]; intros Hasc; simpl; [done|].
  apply ascending_cons in Hasc as [Hall Hasc].
  destruct (h =? h1)%N; [done|].
  apply ascending_cons. split; [|by apply IH].
  intros h' n' Hin. apply In_erase in Hin. by apply (Hall _ _ Hin).
Qed.

Lemma find_erase h m h' :
  ascending m ->
  find h' (erase h m) = if (h' =? h)%N then None else find h' m.
Proof.
  induction m as [|[h1 n1] m IH]; intros Hasc; simpl.
  - by destruct (h' =? h)%N.
  - pose proof Hasc as Hasc0.
    apply ascending_cons in Hasc as [Hall Hasc].
    destruct (N.eqb_spec h h1) as [->|Hne]; simpl.
    + destruct (N.eqb_spec h' h1) as [Heq|Hne']; [|done].
      destruct (find h' m) as [n|] eqn:Hf; [|done].
      apply (find_In _ _ _ Hasc) in Hf. specialize (Hall _ _ Hf). lia.
    + rewrite (IH Hasc).
      destruct (N.eqb_spec h' h1) as [Heq|Hne']; [|done].
      destruct (N.eqb_spec h' h); [congruence|done].
Qed.

(** [lower_bound] on an ascending map. *)
Lemma lower_bound_none hk m :
  lower_bound hk m = [] -> forall h n, In (h, n) m -> (h < hk)%N.
Proof.
  induction m as [|[h1 n1] m IH]; simpl; [by intros|].
  destruct (N.ltb_spec h1 hk) as [Hlt|Hge]; [|done].
  intros Hlb h n [[= <- <-]|Hin]; [done|by apply (IH Hlb _ n)].
Qed.

Lemma lower_bound_some hk m h n tl :
  ascending m ->
  lower_bound hk m = (h, n) :: tl ->
  In (h, n) m /\ (hk <= h)%N /\
  forall h' n', In (h', n') m -> (hk <= h')%N -> (h <= h')%N.
Proof.
  induction m as [|[h1 n1] m IH]; intros Hasc; simpl; [done|].
  apply ascending_cons in Hasc as [Hall Hasc].
  destruct (N.ltb_spec h1 hk) as [Hlt|Hge].
  - intros Hlb. destruct (IH Hasc Hlb) as (Hin & Hle & Hmin).
    split; [by right|]. split; [done|].
    intros h' n' [[= <- <-]|Hin'] Hk; [lia|by apply (Hmin _ n')].
  - intros [= -> -> ->]. split; [by left|]. split; [done|].
    intros h' n' [[= <- <-]|Hin'] _; [lia|].
    specialize (Hall _ _ Hin'). lia.
Qed.

Lemma ascending_head_least h n m :
  ascending ((h, n) :: m) ->
  forall h' n', In (h', n') ((h, n) :: m) -> (h <= h')%N.
Proof.
  intros Hasc%ascending_cons h' n' [[= <- <-]|Hin]; [lia|].
  destruct Hasc as [Hall _]. specialize (Hall _ _ Hin). lia.
Qed.

(** *** The loops of [addNode] and [removeNode] *)

Section Loops.

Variable hash : string -> N.

Lemma add_points_S X c m :
  add_points hash X (S c) m
  = assign (hash (replica X c)) X (add_points hash X c m).
Proof. unfold add_points. by rewrite seq_S, foldl_app. Qed.

Lemma remove_points_S X c m :
  remove_points hash X (S c) m
  = erase (hash (replica X c)) (remove_points hash X c m).
Proof. unfold remove_points. by rewrite seq_S, foldl_app. Qed.

Lemma replica_hashes_S X c :
  replica_hashes hash X (S c)
  = replica_hashes hash X c ++ [hash (replica X c)].
Proof. unfold replica_hashes. by rewrite seq_S, map_app. Qed.

Lemma In_replica_hashes_S X c h :
  In h (replica_hashes hash X (S c)) <->
  In h (replica_hashes hash X c) \/ h = hash (replica X c).
Proof.
  rewrite replica_hashes_S, in_app_iff. simpl. intuition congruence.
Qed.

Lemma ascending_add_points X c m :
  ascending m -> ascending (add_points hash X c m).
Proof.
  intros Hasc. induction c as [|c IH]; [done|].
  rewrite add_points_S. by apply ascending_assign.
Qed.

Lemma ascending_remove_points X c m :
  ascending m -> ascending (remove_points hash X c m).
Proof.
  intros Hasc. induction c as [|c IH]; [done|].
  rewrite remove_points_S. by apply ascending_erase.
Qed.

Lemma find_add_points_at X c m h :
  In h (replica_hashes hash X c) ->
  find h (add_points hash X c m) = Some X.
Proof.
  induction c as [|c IH]; [done|].
  rewrite In_replica_hashes_S, add_points_S, find_assign.
  destruct (N.eqb_spec h (hash (replica X c))); [done|].
  intros [Hin|Heq]; [by apply IH|done].
Qed.

Lemma find_add_points_off X c m h :
  ~ In h (replica_hashes hash X c) ->
  find h (add_points hash X c m) = find h m.
Proof.
  induction c as [|c IH]; [done|].
  rewrite In_replica_hashes_S, add_points_S, find_assign.
  intros Hnot.
  destruct (N.eqb_spec h (hash (replica X c))) as [Heq|_]; [tauto|].
  apply IH. tauto.
Qed.

Lemma find_remove_points_at X c m h :
  ascending m ->
  In h (replica_hashes hash X c) ->
  find h (remove_points hash X c m) = None.
Proof.
  intros Hasc. induction c as [|c IH]; [done|].
  rewrite In_replica_hashes_S, remove_points_S.
  rewrite find_erase by by apply ascending_remove_points.
  destruct (N.eqb_spec h (hash (replica X c))); [done|].
  intros [Hin|Heq]; [by apply IH|done].
Qed.

Lemma find_remove_points_off X c m h :
  ascending m ->
  ~ In h (replica_hashes hash X c) ->
  find h (remove_points hash X c m) = find h m.
Proof.
  intros Hasc. induction c as [|c IH]; [done|].
  rewrite In_replica_hashes_S, remove_points_S.
  rewrite find_erase by by apply ascending_remove_points.
  intros Hnot.
  destruct (N.eqb_spec h (hash (replica X c))) as [Heq|_]; [tauto|].
  apply IH. tauto.
Qed.

Lemma replica_hashes_dec X c h :
  {In h (replica_hashes hash X c)} + {~ In h (replica_hashes hash X c)}.
Proof. apply In_dec, N.eq_dec. Qed.

(** *** [getNode] *)

Lemma getNode_empty key r :
  ring_ r = [] -> getNode hash key r = EmptyString.
Proof. unfold getNode. by intros ->. Qed.

Lemma getNode_owner key r :
  ascending (ring_ r) -> ring_ r <> [] ->
  exists h,
    In (h, getNode hash key r) (ring_ r) /\
    clockwise_first (hash key) h (ring_ r).
Proof.
  unfold getNode. intros Hasc Hne.
  destruct (ring_ r) as [|[h0 n0] m] eqn:Hr; [done|]. clear Hne.
  cbv zeta.
  destruct (lower_bound (hash key) ((h0, n0) :: m)) as [|[h n] tl] eqn:Hlb.
  - exists h0. split; [by left|]. right. split.
    + by apply lower_bound_none.
    + by apply ascending_head_least.
  - destruct (lower_bound_some _ _ _ _ _ Hasc Hlb) as (Hin & Hle & Hmin).
    exists h. split; [done|]. left. by split.
Qed.

Lemma clockwise_first_unique hk h1 h2 n1 n2 m :
  In (h1, n1) m -> In (h2, n2) m ->
  clockwise_first hk h1 m -> clockwise_first hk h2 m -> h1 = h2.
Proof.
  intros Hin1 Hin2 [[Hle1 Hmin1]|[Hall1 Hmin1]] [[Hle2 Hmin2]|[Hall2 Hmin2]].
  - specialize (Hmin1 _ _ Hin2 Hle2). specialize (Hmin2 _ _ Hin1 Hle1). lia.
  - specialize (Hall2 _ _ Hin1). lia.
  - specialize (Hall1 _ _ Hin2). lia.
  - specialize (Hmin1 _ _ Hin2). specialize (Hmin2 _ _ Hin1). lia.
Qed.

Lemma getNode_clockwise_first key r h n :
  ascending (ring_ r) ->
  In (h, n) (ring_ r) ->
  clockwise_first (hash key) h (ring_ r) ->
  getNode hash key r = n.
Proof.
  intros Hasc Hin Hcw.
  destruct (getNode_owner key r Hasc) as (h0 & Hin0 & Hcw0).
  { intros Hnil. by rewrite Hnil in Hin. }
  assert (h0 = h) as -> by eauto using clockwise_first_unique.
  apply (find_In _ _ _ Hasc) in Hin, Hin0. congruence.
Qed.

(** *** Rings built by calls *)

Lemma run_snoc cs c r : run hash (cs ++ [c]) r = step hash c (run hash cs r).
Proof. unfold run. by rewrite foldl_app. Qed.

Lemma run_app cs1 cs2 r :
  run hash (cs1 ++ cs2) r = run hash cs2 (run hash cs1 r).
Proof. unfold run. by rewrite foldl_app. Qed.

Lemma step_numReplicas c r : numReplicas_ (step hash c r) = numReplicas_ r.
Proof. by destruct c. Qed.

Lemma run_numReplicas cs r : numReplicas_ (run hash cs r) = numReplicas_ r.
Proof.
  induction cs as [|c cs IH] using rev_ind; [done|].
  by rewrite run_snoc, step_numReplicas.
Qed.

Lemma step_ascending c r :
  ascending (ring_ r) -> ascending (ring_ (step hash c r)).
Proof.
  destruct c; simpl; intros.
  - by apply ascending_add_points.
  - by apply ascending_remove_points.
Qed.

Lemma run_ascending cs r :
  ascending (ring_ r) -> ascending (ring_ (run hash cs r)).
Proof.
  intros Hasc. induction cs as [|c cs IH] using rev_ind; [done|].
  rewrite run_snoc. by apply step_ascending.
Qed.

Lemma In_add_points X c m h n :
  In (h, n) (add_points hash X c m) ->
  (n = X /\ In h (replica_hashes hash X c)) \/ In (h, n) m.
Proof.
  induction c as [|c IH]; [by right|].
  rewrite add_points_S, In_replica_hashes_S.
  intros [[-> ->]|Hin]%In_assign; [left; tauto|].
  destruct (IH Hin); [left|right]; tauto.
Qed.

Lemma In_remove_points X c m p :
  In p (remove_points hash X c m) -> In p m.
Proof.
  induction c as [|c IH]; [done|].
  rewrite remove_points_S. intros Hin%In_erase. by apply IH.
Qed.

Lemma step_names_hashed c r :
  names_hashed hash r -> names_hashed hash (step hash c r).
Proof.
  intros Hinv h n. destruct c as [X|X]; simpl.
  - intros [[-> Hin]|Hin]%In_add_points; [done|by apply Hinv].
  - intros Hin%In_remove_points. by apply Hinv.
Qed.

Lemma run_names_hashed cs r :
  names_hashed hash r -> names_hashed hash (run hash cs r).
Proof.
  intros Hinv. induction cs as [|c cs IH] using rev_ind; [done|].
  rewrite run_snoc. by apply step_names_hashed.
Qed.

Lemma removeNode_absent C r :
  ascending (ring_ r) -> names_hashed hash r -> absent C (removeNode hash C r).
Proof.
  intros Hasc Hinv h Hin. simpl in Hin.
  pose proof (In_remove_points _ _ _ _ Hin) as Hin0.
  apply Hinv in Hin0.
  apply (find_In _ _ _ (ascending_remove_points C _ _ Hasc)) in Hin.
  by rewrite find_remove_points_at in Hin.
Qed.

Lemma step_absent C c r :
  c <> AddNode C -> absent C r -> absent C (step hash c r).
Proof.
  intros Hc Habs h. destruct c as [X|X]; simpl.
  - intros [[-> _]|Hin]%In_add_points; [done|by apply (Habs h)].
  - intros Hin%In_remove_points. by apply (Habs h).
Qed.

Lemma run_absent C cs : forall r,
  ~ In (AddNode C) cs -> absent C r -> absent C (run hash cs r).
Proof.
  induction cs as [|c cs IH]; intros r Hnot Habs; [done|].
  change (run hash (c :: cs) r) with (run hash cs (step hash c r)).
  apply IH.
  - intros Hin. apply Hnot. by right.
  - apply step_absent; [|done]. intros ->. apply Hnot. by left.
Qed.

Lemma In_replica_hashes X c h :
  In h (replica_hashes hash X c) <->
  exists i, i < c /\ h = hash (replica X i).
Proof.
  unfold replica_hashes. rewrite in_map_iff. split.
  - intros (i & <- & Hi%in_seq). exists i. split; [lia|done].
  - intros (i & Hi & ->). exists i. split; [done|]. apply in_seq. lia.
Qed.

(** *** One membership change *)

Lemma clockwise_first_keys hk h (m m' : points) :
  (forall h1 n1, In (h1, n1) m -> exists n2, In (h1, n2) m') ->
  clockwise_first hk h m' -> clockwise_first hk h m.
Proof.
  intros Hkeys [[Hle Hmin]|[Hall Hmin]]; [left|right]; split; try done.
  - intros h1 n1 [n2 Hin]%Hkeys. by apply (Hmin _ n2).
  - intros h1 n1 [n2 Hin]%Hkeys. by apply (Hall _ n2).
  - intros h1 n1 [n2 Hin]%Hkeys. by apply (Hmin _ n2).
Qed.

Lemma add_points_keys X c m h n :
  ascending m -> In (h, n) m ->
  exists n', In (h, n') (add_points hash X c m).
Proof.
  intros Hasc Hin.
  pose proof (ascending_add_points X c m Hasc) as Hasc'.
  destruct (replica_hashes_dec X c h) as [Hh|Hh].
  - exists X. apply (find_In _ _ _ Hasc'). by apply find_add_points_at.
  - exists n. apply (find_In _ _ _ Hasc').
    rewrite find_add_points_off by done. by apply (find_In _ _ _ Hasc).
Qed.

Lemma addNode_moves_to_node r X key :
  ascending (ring_ r) ->
  getNode hash key (addNode hash X r) <> getNode hash key r ->
  getNode hash key (addNode hash X r) = X.
Proof.
  intros Hasc Hdiff.
  destruct (decide (getNode hash key (addNode hash X r) = X)) as [|Hne];
    [done|].
  exfalso. apply Hdiff. clear Hdiff.
  set (c := Z.to_nat (numReplicas_ r)) in *.
  pose proof (ascending_add_points X c _ Hasc) as Hasc'.
  destruct (ring_ (addNode hash X r)) as [|p m'] eqn:Hring.
  - rewrite (getNode_empty key (addNode hash X r) Hring).
    destruct (ring_ r) as [|[h n] m] eqn:Hr.
    + by rewrite (getNode_empty key r Hr).
    + destruct (add_points_keys X c ((h, n) :: m) h n Hasc) as [n' Hin];
        [by left|].
      simpl in Hring. fold c in Hring. rewrite Hr in Hring.
      by rewrite Hring in Hin.
  - destruct (getNode_owner key (addNode hash X r)) as (h & Hin & Hcw).
    { done. } { by rewrite Hring. }
    simpl in Hin, Hcw. fold c in Hin, Hcw.
    pose proof Hin as Hfind. apply (find_In _ _ _ Hasc') in Hfind.
    destruct (replica_hashes_dec X c h) as [Hh|Hh].
    { rewrite find_add_points_at in Hfind by done. congruence. }
    rewrite find_add_points_off in Hfind by done.
    apply (find_In _ _ _ Hasc) in Hfind.
    symmetry. apply (getNode_clockwise_first key r h); [done..|].
    apply (clockwise_first_keys _ _ _ (add_points hash X c (ring_ r)));
      [|done].
    intros h1 n1 Hin1. by apply (add_points_keys X c _ h1 n1).
Qed.

Lemma remove_points_nil X c : remove_points hash X c [] = [].
Proof.
  induction c as [|c IH]; [done|]. by rewrite remove_points_S, IH.
Qed.

Lemma removeNode_moves_from_point r X key :
  ascending (ring_ r) ->
  getNode hash key (removeNode hash X r) <> getNode hash key r ->
  exists h,
    In h (replica_hashes hash X (Z.to_nat (numReplicas_ r))) /\
    find h (ring_ r) = Some (getNode hash key r).
Proof.
  intros Hasc Hdiff.
  set (c := Z.to_nat (numReplicas_ r)) in *.
  pose proof (ascending_remove_points X c _ Hasc) as Hasc'.
  destruct (decide (ring_ r = [])) as [Hr|Hr].
  - exfalso. apply Hdiff.
    rewrite (getNode_empty key r Hr). apply getNode_empty.
    simpl. fold c. rewrite Hr. apply remove_points_nil.
  - destruct (getNode_owner key r Hasc Hr) as (h & Hin & Hcw).
    destruct (replica_hashes_dec X c h) as [Hh|Hh].
    { exists h. split; [done|]. by apply (find_In _ _ _ Hasc). }
    exfalso. apply Hdiff.
    apply (getNode_clockwise_first key (removeNode hash X r) h); [done|..].
    + simpl. fold c. apply (find_In _ _ _ Hasc').
      rewrite find_remove_points_off by done.
      by apply (find_In _ _ _ Hasc).
    + simpl. fold c.
      apply (clockwise_first_keys _ _ _ (ring_ r)); [|done].
      intros h1 n1 Hin1%In_remove_points. by exists n1.
Qed.

Lemma make_ascending numReplicas : ascending (ring_ (make numReplicas)).
Proof. done. Qed.

Lemma make_names_hashed numReplicas : names_hashed hash (make numReplicas).
Proof. by intros h n []. Qed.

(** C3.  On a ring built from an empty one by [addNode] and
    [removeNode] calls, once [removeNode(C)] has been called and [C] not
    added again, no point of the ring holds [C], for every name [C], and
    [getNode(key)] does not return [C], for every key: its answer is the
    name held by a point of the ring, which is not [C], or, when the
    ring has no points at all, the empty string by which [getNode] says
    that there is no node (the answer the test [AddRemove] expects after
    the only node was removed).  In particular the answer differs from
    every non-empty [C]. *)
Theorem removed_node_not_returned (numReplicas : Z) (cs : list call)
    (C key : string) :
  removed_for_good C cs ->
  absent C (run hash cs (make numReplicas)) /\
  ((ring_ (run hash cs (make numReplicas)) = [] /\
    getNode hash key (run hash cs (make numReplicas)) = EmptyString) \/
   (ring_ (run hash cs (make numReplicas)) <> [] /\
    getNode hash key (run hash cs (make numReplicas)) <> C)) /\
  (C <> EmptyString ->
   getNode hash key (run hash cs (make numReplicas)) <> C).
Proof.
  intros (before & afterwards & -> & Hnot).
  rewrite run_app.
  change (run hash (RemoveNode C :: afterwards) ?r)
    with (run hash afterwards (removeNode hash C r)).
  set (r1 := run hash before (make numReplicas)).
  assert (Hasc1 : ascending (ring_ r1))
    by apply run_ascending, make_ascending.
  assert (Hinv1 : names_hashed hash r1)
    by apply run_names_hashed, make_names_hashed.
  set (r2 := removeNode hash C r1).
  assert (Habs : absent C (run hash afterwards r2)).
  { apply run_absent; [done|]. by apply removeNode_absent. }
  split; [done|].
  assert (Hasc : ascending (ring_ (run hash afterwards r2))).
  { apply run_ascending. by apply (step_ascending (RemoveNode C)). }
  destruct (decide (ring_ (run hash afterwards r2) = [])) as [Hring|Hring].
  - pose proof (getNode_empty key _ Hring) as Hempty.
    split; [by left|]. rewrite Hempty. congruence.
  - assert (Hne : getNode hash key (run hash afterwards r2) <> C).
    { destruct (getNode_owner key _ Hasc Hring) as (h & Hin & _).
      intros Heq. rewrite Heq in Hin. by apply (Habs h). }
    split; [by right|done].
Qed.

(** C4, as amended.  On a ring built from an empty one by [addNode] and
    [removeNode] calls: if [getNode(key)] after [addNode(X)] differs
    from [getNode(key)] before, the new result is [X]; and if
    [getNode(key)] after [removeNode(X)] differs from [getNode(key)]
    before, the old result was the name held by one of [X]'s virtual
    points [hash(X#i)], [i < numReplicas] -- which is [X] whenever every
    such point of the ring holds [X], that is, unless a replica of
    another node hashes to the same value. *)
Theorem membership_change_moves (numReplicas : Z) (cs : list call)
    (X key : string) :
  (getNode hash key (addNode hash X (run hash cs (make numReplicas)))
     <> getNode hash key (run hash cs (make numReplicas)) ->
   getNode hash key (addNode hash X (run hash cs (make numReplicas))) = X) /\
  (getNode hash key (removeNode hash X (run hash cs (make numReplicas)))
     <> getNode hash key (run hash cs (make numReplicas)) ->
   exists i,
     (Z.of_nat i < numReplicas)%Z /\
     find (hash (replica X i)) (ring_ (run hash cs (make numReplicas)))
     = Some (getNode hash key (run hash cs (make numReplicas)))) /\
  ((forall i n,
      (Z.of_nat i < numReplicas)%Z ->
      find (hash (replica X i)) (ring_ (run hash cs (make numReplicas)))
      = Some n -> n = X) ->
   getNode hash key (removeNode hash X (run hash cs (make numReplicas)))
     <> getNode hash key (run hash cs (make numReplicas)) ->
   getNode hash key (run hash cs (make numReplicas)) = X).
Proof.
  set (r := run hash cs (make numReplicas)).
  assert (Hasc : ascending (ring_ r)) by apply run_ascending, make_ascending.
  assert (Hnr : numReplicas_ r = numReplicas) by apply run_numReplicas.
  assert (Hrem :
    getNode hash key (removeNode hash X r) <> getNode hash key r ->
    exists i,
      (Z.of_nat i < numReplicas)%Z /\
      find (hash (replica X i)) (ring_ r) = Some (getNode hash key r)).
  { intros Hdiff.
    destruct (removeNode_moves_from_point r X key Hasc Hdiff)
      as (h & (i & Hi & ->)%In_replica_hashes & Hfind).
    exists i. split; [rewrite Hnr in Hi; lia|done]. }
  split; [by apply addNode_moves_to_node|]. split; [done|].
  intros Hown Hdiff. destruct (Hrem Hdiff) as (i & Hi & Hfind).
  by apply (Hown i).
Qed.

(** C5.  On a ring built from an empty one by [addNode] and [removeNode]
    calls, [getNode(key)] returns the empty string when the ring has no
    points; otherwise it returns the name stored at the point that is
    first clockwise from [hash(key)]: the point with the least hash
    value among those not below [hash(key)], or, when there is none, the
    point with the least hash value of all. *)
Theorem getNode_clockwise (numReplicas : Z) (cs : list call)
    (key : string) :
  (ring_ (run hash cs (make numReplicas)) = [] ->
   getNode hash key (run hash cs (make numReplicas)) = EmptyString) /\
  (ring_ (run hash cs (make numReplicas)) <> [] ->
   exists h,
     In (h, getNode hash key (run hash cs (make numReplicas)))
        (ring_ (run hash cs (make numReplicas))) /\
     clockwise_first (hash key) h (ring_ (run hash cs (make numReplicas)))) /\
  (forall h n,
     In (h, n) (ring_ (run hash cs (make numReplicas))) ->
     clockwise_first (hash key) h (ring_ (run hash cs (make numReplicas))) ->
     getNode hash key (run hash cs (make numReplicas)) = n).
Proof.
  set (r := run hash cs (make numReplicas)).
  assert (Hasc : ascending (ring_ r)) by apply run_ascending, make_ascending.
  split; [apply getNode_empty|].
  split; [by apply getNode_owner|].
  intros h n. by apply getNode_clockwise_first.
Qed.

End Loops.

(** *** Concrete rings *)

Lemma removed_node_not_returned_witness :
  removed_for_good "nodeC"
    [AddNode "nodeA"; AddNode "nodeB"; AddNode "nodeC"; RemoveNode "nodeC";
     AddNode "nodeD"] /\
  getNode sample_hash "KeyABC"
    (run sample_hash
       [AddNode "nodeA"; AddNode "nodeB"; AddNode "nodeC";
        RemoveNode "nodeC"; AddNode "nodeD"] (make 100))
  <> "nodeC".
Proof.
  assert (Hrem : removed_for_good "nodeC"
    [AddNode "nodeA"; AddNode "nodeB"; AddNode "nodeC"; RemoveNode "nodeC";
     AddNode "nodeD"]).
  { exists [AddNode "nodeA"; AddNode "nodeB"; AddNode "nodeC"],
           [AddNode "nodeD"].
    split; [reflexivity|]. intros [H|[]]. discriminate H. }
  split; [exact Hrem|].
  destruct (removed_node_not_returned sample_hash 100 _ "nodeC" "KeyABC"
              Hrem) as (_ & _ & Hne).
  apply Hne. discriminate.
Defined.

(** The empty name is a name like any other while the ring has points:
    removed, it is not returned; only the empty ring answers with the
    empty string. *)
Example empty_name_on_ring :
  getNode sample_hash "a"
    (run sample_hash [AddNode EmptyString; AddNode "nodeA"] (make 2))
    = EmptyString /\
  getNode sample_hash "a"
    (run sample_hash
       [AddNode EmptyString; AddNode "nodeA"; RemoveNode EmptyString]
       (make 2))
    = "nodeA".
Proof. by vm_compute. Qed.

Lemma membership_change_moves_witness :
  getNode sample_hash "nodeC#0"
    (addNode sample_hash "nodeC"
       (run sample_hash [AddNode "nodeA"; AddNode "nodeB"] (make 3)))
  = "nodeC" /\
  getNode sample_hash "nodeB#0"
    (run sample_hash [AddNode "nodeA"; AddNode "nodeB"] (make 3))
  = "nodeB".
Proof.
  pose proof (membership_change_moves sample_hash 3
                [AddNode "nodeA"; AddNode "nodeB"] "nodeC" "nodeC#0")
    as (Hadd & _ & _).
  pose proof (membership_change_moves sample_hash 3
                [AddNode "nodeA"; AddNode "nodeB"] "nodeB" "nodeB#0")
    as (_ & _ & Hrem).
  split.
  - apply Hadd. vm_compute. discriminate.
  - apply Hrem.
    + intros i n Hi. assert (i = 0 \/ i = 1 \/ i = 2) as [->|[->| ->]] by lia;
        vm_compute; congruence.
    + vm_compute. discriminate.
Defined.

(** C4 as stated fails when replica names of two nodes have the same
    hash value.  With the sample hash, [Aa#0] and [BB#0] collide: on the
    ring that holds the one point of [BB], [removeNode("Aa")] erases
    that point, and a key moves away from [BB], which was not removed. *)
Example removal_moves_foreign_key :
  sample_hash (replica "Aa" 0) = sample_hash (replica "BB" 0) /\
  getNode sample_hash "IBM" (run sample_hash [AddNode "BB"] (make 1))
    = "BB" /\
  getNode sample_hash "IBM"
    (removeNode sample_hash "Aa" (run sample_hash [AddNode "BB"] (make 1)))
    = EmptyString.
Proof. by vm_compute. Qed.

(** Such a pair of names exists for every hash function with values in
    [size_t]: there are more node names than hash values. *)
Lemma replica_hash_collision (hash : string -> N) :
  size_t_range hash ->
  exists X Y : string,
    X <> Y /\ Y <> EmptyString /\
    hash (replica X 0) = hash (replica Y 0).
Proof.
  intros Hrange.
  pose (name := fun i : nat => "n" +:+ pretty i).
  pose (f := fun i : nat => N.to_nat (hash (replica (name i) 0))).
  remember (N.to_nat (2 ^ 64)) as B eqn:HB.
  destruct (nat_pigeonhole f (S B) B) as (i & j & Hij & Hf); [lia|..].
  { intros i _. unfold f. specialize (Hrange (replica (name i) 0)). lia. }
  exists (name i), (name j). split; [|split].
  - unfold name. intros Heq%(inj (String.append "n"))%(inj pretty). lia.
  - done.
  - unfold f in Hf. by apply N2Nat.inj in Hf.
Qed.

(** C4 as stated fails for every hash function with values in
    [size_t]. *)
Lemma no_hash_moves_only_own_keys :
  ~ exists hash : string -> N,
      size_t_range hash /\ moves_only_own_keys hash.
Proof.
  intros (hash & Hrange & Hclaim).
  destruct (replica_hash_collision hash Hrange) as (X & Y & Hne & HY & Hcol).
  destruct (Hclaim 1%Z [AddNode Y] X "key") as [_ Hrem].
  assert (Hring :
    ring_ (run hash [AddNode Y] (make 1)) = [(hash (replica Y 0), Y)])
    by reflexivity.
  assert (Hbefore :
    getNode hash "key" (run hash [AddNode Y] (make 1)) = Y).
  { unfold getNode. rewrite Hring. cbn [lower_bound].
    by destruct (hash (replica Y 0) <? hash "key")%N. }
  assert (Hafter :
    getNode hash "key" (removeNode hash X (run hash [AddNode Y] (make 1)))
    = EmptyString).
  { apply getNode_empty.
    change (ring_ (removeNode hash X (run hash [AddNode Y] (make 1))))
      with (erase (hash (replica X 0))
              (ring_ (run hash [AddNode Y] (make 1)))).
    rewrite Hring, Hcol. cbn [erase]. by rewrite N.eqb_refl. }
  rewrite Hbefore, Hafter in Hrem.
  apply Hne. symmetry. apply Hrem. congruence.
Qed.

Lemma getNode_clockwise_witness :
  getNode sample_hash "nodeB#0"
    (run sample_hash [AddNode "nodeA"; AddNode "nodeB"] (make 2)) = "nodeB" /\
  getNode sample_hash "nodeB#1x"
    (run sample_hash [AddNode "nodeA"; AddNode "nodeB"] (make 2)) = "nodeA" /\
  getNode sample_hash "nodeB#0"
    (run sample_hash [AddNode "nodeA"; RemoveNode "nodeA"] (make 2))
    = EmptyString.
Proof.
  set (r := run sample_hash [AddNode "nodeA"; AddNode "nodeB"] (make 2)).
  assert (Hring : ring_ r =
    [(100898665260%N, "nodeA"); (100898665261%N, "nodeA");
     (100898666221%N, "nodeB"); (100898666222%N, "nodeB")])
    by (vm_compute; reflexivity).
  assert (Hk1 : sample_hash "nodeB#0" = 100898666221%N)
    by (vm_compute; reflexivity).
  assert (Hk2 : sample_hash "nodeB#1x" = 3127858653002%N)
    by (vm_compute; reflexivity).
  split; [|split].
  - destruct (getNode_clockwise sample_hash 2
                [AddNode "nodeA"; AddNode "nodeB"] "nodeB#0") as (_ & _ & H).
    fold r in H. rewrite Hring, Hk1 in H.
    apply (H 100898666221%N "nodeB"); [simpl; tauto|].
    left. split; [lia|].
    intros h' n' Hin Hle. simpl in Hin.
    repeat (destruct Hin as [[= <- <-]|Hin]; [lia|]). destruct Hin.
  - destruct (getNode_clockwise sample_hash 2
                [AddNode "nodeA"; AddNode "nodeB"] "nodeB#1x") as (_ & _ & H).
    fold r in H. rewrite Hring, Hk2 in H.
    apply (H 100898665260%N "nodeA"); [simpl; tauto|].
    right. split.
    + intros h' n' Hin. simpl in Hin.
      repeat (destruct Hin as [[= <- <-]|Hin]; [lia|]). destruct Hin.
    + intros h' n' Hin. simpl in Hin.
      repeat (destruct Hin as [[= <- <-]|Hin]; [lia|]). destruct Hin.
  - destruct (getNode_clockwise sample_hash 2
                [AddNode "nodeA"; RemoveNode "nodeA"] "nodeB#0") as (H & _).
    apply H. vm_compute. reflexivity.
Defined.

End RingFacts.

(** ** The ring buffer, used sequentially *)

Module BufferFacts.
Import LockFreeRingBuffer.
Local Open Scope Z_scope.

Section Sequential.

Context {T : Type}.
Variable Size : Z.

(** [Size + 1] is a [size_t] value and the number of slots of
    [buffer_], so it is not zero modulo [2^64]. *)
Hypothesis Size_nonneg : 0 <= Size.
Hypothesis Size_fits : Size + 1 < 2 ^ 64.

Lemma next_index i :
  0 <= i < Size + 1 ->
  wrap (i + 1) mod wrap (Size + 1)
  = if i + 1 =? Size + 1 then 0 else i + 1.
Proof.
  intros Hi. unfold wrap.
  rewrite (Z.mod_small (i + 1) (2 ^ 64)), (Z.mod_small (Size + 1) (2 ^ 64))
    by lia.
  destruct (Z.eqb_spec (i + 1) (Size + 1)) as [->|Hne].
  - apply Z_mod_same_full.
  - apply Z.mod_small. lia.
Qed.

Lemma size_in_range (rb : t T) :
  in_range Size rb ->
  size Size rb
  = if head_ rb >=? tail_ rb then head_ rb - tail_ rb
    else Size + 1 - (tail_ rb - head_ rb).
Proof.
  intros [Hh Ht]. unfold size, wrap.
  destruct (Z.geb_spec (head_ rb) (tail_ rb)).
  - apply Z.mod_small. lia.
  - rewrite (Z.mod_small (Size + 1)), (Z.mod_small (tail_ rb - head_ rb))
      by lia.
    apply Z.mod_small. lia.
Qed.

Lemma size_bounds (rb : t T) : in_range Size rb -> 0 <= size Size rb <= Size.
Proof.
  intros Hr. rewrite (size_in_range rb Hr). destruct Hr as [Hh Ht].
  destruct (Z.geb_spec (head_ rb) (tail_ rb)); lia.
Qed.

Lemma make_in_range (slots : list T) : in_range Size (make slots).
Proof. unfold in_range, make; simpl. lia. Qed.

Lemma make_size (slots : list T) : size Size (make slots) = 0.
Proof. by rewrite size_in_range by apply make_in_range. Qed.

Lemma next_index_cases i :
  0 <= i < Size + 1 ->
  0 <= wrap (i + 1) mod wrap (Size + 1) < Size + 1 /\
  (wrap (i + 1) mod wrap (Size + 1) = i + 1 \/
   (wrap (i + 1) mod wrap (Size + 1) = 0 /\ i = Size)).
Proof.
  intros Hi. rewrite (next_index i Hi).
  destruct (Z.eqb_spec (i + 1) (Size + 1)); lia.
Qed.

(** [push] succeeds exactly when fewer than [Size] items are held, and
    then holds one more. *)
Lemma push_spec (item : T) (rb : t T) :
  in_range Size rb ->
  in_range Size (snd (push Size item rb)) /\
  (fst (push Size item rb) = true <-> size Size rb < Size) /\
  size Size (snd (push Size item rb))
  = size Size rb + (if fst (push Size item rb) then 1 else 0).
Proof.
  intros Hr. pose proof (size_in_range rb Hr) as Hs.
  pose proof Hr as [Hh Ht]. unfold push.
  pose proof (next_index_cases _ Hh) as [Hn Hcases].
  set (nextHead := wrap (head_ rb + 1) mod wrap (Size + 1)) in *.
  destruct (Z.eqb_spec nextHead (tail_ rb)) as [Hf|Hf]; cbn [fst snd].
  - split; [done|]. split; [|lia]. split; [done|].
    rewrite Hs. destruct (Z.geb_spec (head_ rb) (tail_ rb)); lia.
  - assert (Hr' : in_range Size
      {| buffer_ := <[Z.to_nat (head_ rb) := item]> (buffer_ rb);
         head_ := nextHead; tail_ := tail_ rb |}) by done.
    split; [done|]. split.
    + split; [intros _|done].
      rewrite Hs. destruct (Z.geb_spec (head_ rb) (tail_ rb)); lia.
    + rewrite (size_in_range _ Hr'), Hs. cbn [head_ tail_].
      destruct (Z.geb_spec (head_ rb) (tail_ rb));
        destruct (Z.geb_spec nextHead (tail_ rb)); lia.
Qed.

(** [pop] succeeds exactly when an item is held, and then holds one
    less. *)
Lemma pop_spec (item : T) (rb : t T) :
  in_range Size rb ->
  in_range Size (snd (pop Size item rb)) /\
  (fst (fst (pop Size item rb)) = true <-> 0 < size Size rb) /\
  size Size (snd (pop Size item rb))
  = size Size rb - (if fst (fst (pop Size item rb)) then 1 else 0).
Proof.
  intros Hr. pose proof (size_in_range rb Hr) as Hs.
  pose proof Hr as [Hh Ht]. unfold pop.
  pose proof (next_index_cases _ Ht) as [Hn Hcases].
  set (nextTail := wrap (tail_ rb + 1) mod wrap (Size + 1)) in *.
  destruct (Z.eqb_spec (tail_ rb) (head_ rb)) as [He|He]; cbn [fst snd].
  - split; [done|]. split; [|lia]. split; [done|].
    rewrite Hs. destruct (Z.geb_spec (head_ rb) (tail_ rb)); lia.
  - assert (Hr' : in_range Size
      {| buffer_ := buffer_ rb; head_ := head_ rb; tail_ := nextTail |})
      by done.
    split; [done|]. split.
    + split; [intros _|done].
      rewrite Hs. destruct (Z.geb_spec (head_ rb) (tail_ rb)); lia.
    + rewrite (size_in_range _ Hr'), Hs. cbn [head_ tail_].
      destruct (Z.geb_spec (head_ rb) (tail_ rb));
        destruct (Z.geb_spec (head_ rb) nextTail); lia.
Qed.

Lemma step_spec c (rb : t T) :
  in_range Size rb ->
  in_range Size (snd (step Size c rb)) /\
  size Size (snd (step Size c rb))
  = size Size rb
    + (if is_push c && fst (step Size c rb) then 1 else 0)
    - (if negb (is_push c) && fst (step Size c rb) then 1 else 0).
Proof.
  intros Hr. destruct c as [x|x]; cbn [step is_push negb andb].
  - destruct (push_spec x rb Hr) as (Hr' & _ & Hs).
    split; [done|]. rewrite Hs. lia.
  - destruct (pop_spec x rb Hr) as (Hr' & _ & Hs).
    destruct (pop Size x rb) as [[ok v] rb'] eqn:Hpop. cbn [fst snd] in *.
    split; [done|]. rewrite Hs. lia.
Qed.

Lemma run_calls_cons c cs (rb : t T) :
  run Size (c :: cs) rb
  = ((c, fst (step Size c rb)) :: fst (run Size cs (snd (step Size c rb))),
     snd (run Size cs (snd (step Size c rb)))).
Proof.
  cbn [run]. destruct (step Size c rb) as [ok rb1]. cbn [fst snd].
  by destruct (run Size cs rb1).
Qed.

Lemma run_calls_app cs1 cs2 (rb : t T) :
  run Size (cs1 ++ cs2) rb
  = (fst (run Size cs1 rb) ++ fst (run Size cs2 (snd (run Size cs1 rb))),
     snd (run Size cs2 (snd (run Size cs1 rb)))).
Proof.
  revert rb. induction cs1 as [|c cs1 IH]; intros rb.
  - cbn [app run fst snd]. by destruct (run Size cs2 rb).
  - rewrite <- app_comm_cons, !run_calls_cons, IH. reflexivity.
Qed.

Lemma pushed_cons c ok (tr : list (call T * bool)) :
  pushed ((c, ok) :: tr) = (if is_push c && ok then 1 else 0) + pushed tr.
Proof.
  unfold pushed. cbn [List.filter fst snd].
  destruct (is_push c && ok); cbn [length]; lia.
Qed.

Lemma popped_cons c ok (tr : list (call T * bool)) :
  popped ((c, ok) :: tr)
  = (if negb (is_push c) && ok then 1 else 0) + popped tr.
Proof.
  unfold popped. cbn [List.filter fst snd].
  destruct (negb (is_push c) && ok); cbn [length]; lia.
Qed.

(** The occupancy is the number of successful pushes less the number of
    successful pops. *)
Lemma run_spec cs : forall rb : t T,
  in_range Size rb ->
  in_range Size (snd (run Size cs rb)) /\
  size Size (snd (run Size cs rb))
  = size Size rb + pushed (fst (run Size cs rb))
    - popped (fst (run Size cs rb)).
Proof.
  induction cs as [|c cs IH]; intros rb Hr.
  - cbn [run fst snd]. split; [done|]. unfold pushed, popped. simpl. lia.
  - rewrite run_calls_cons. cbn [fst snd].
    destruct (step_spec c rb Hr) as [Hr1 Hs1].
    destruct (IH _ Hr1) as [Hr2 Hs2].
    split; [done|]. rewrite Hs2, Hs1, pushed_cons, popped_cons. lia.
Qed.

(** Pushes into a buffer with room for all of them succeed. *)
Lemma run_pushes items : forall rb : t T,
  in_range Size rb ->
  size Size rb + Z.of_nat (length items) <= Size ->
  fst (run Size (map Push items) rb) = map (fun x => (Push x, true)) items /\
  in_range Size (snd (run Size (map Push items) rb)) /\
  size Size (snd (run Size (map Push items) rb))
  = size Size rb + Z.of_nat (length items).
Proof.
  induction items as [|x items IH]; intros rb Hr Hroom.
  - cbn [map run fst snd length]. split; [done|]. split; [done|]. lia.
  - cbn [map]. rewrite run_calls_cons. cbn [fst snd step].
    cbn [length] in Hroom.
    destruct (push_spec x rb Hr) as (Hr1 & Hok & Hs1).
    assert (Htrue : fst (push Size x rb) = true) by (apply Hok; lia).
    rewrite Htrue in *.
    destruct (IH _ Hr1) as (Htr & Hr2 & Hs2); [lia|].
    rewrite Htr. split; [done|]. split; [done|].
    rewrite Hs2, Hs1. cbn [length]. lia.
Qed.

(** C8.  A buffer of capacity [Size], used by one thread.  Starting
    empty, [Size] consecutive pushes all return true and the next one
    returns false; if one pop follows (and [Size] is not zero) it
    succeeds, the push after it succeeds and the push after that fails;
    after any sequence of calls a successful pop is followed by a
    successful push; and after any sequence of calls with [K] successful
    pushes and [J] successful pops, [J <= K] and [size()] is [K - J]. *)
Theorem ring_buffer_capacity (slots : list T) :
  (forall items y,
     Z.of_nat (length items) = Size ->
     fst (run Size (map Push items ++ [Push y]) (make slots))
     = map (fun x => (Push x, true)) items ++ [(Push y, false)]) /\
  (forall items y item x z,
     Z.of_nat (length items) = Size -> 0 < Size ->
     fst (run Size (map Push items ++ [Push y; Pop item; Push x; Push z])
            (make slots))
     = map (fun x => (Push x, true)) items
       ++ [(Push y, false); (Pop item, true); (Push x, true);
           (Push z, false)]) /\
  (forall cs item x,
     fst (fst (pop Size item (snd (run Size cs (make slots))))) = true ->
     fst (push Size x
            (snd (pop Size item (snd (run Size cs (make slots))))))
     = true) /\
  (forall cs,
     popped (fst (run Size cs (make slots)))
       <= pushed (fst (run Size cs (make slots))) /\
     size Size (snd (run Size cs (make slots)))
     = pushed (fst (run Size cs (make slots)))
       - popped (fst (run Size cs (make slots)))).
Proof.
  pose proof (make_in_range slots) as Hr0.
  pose proof (make_size slots) as Hs0.
  assert (Hfull : forall items,
    Z.of_nat (length items) = Size ->
    fst (run Size (map Push items) (make slots))
      = map (fun x => (Push x, true)) items /\
    in_range Size (snd (run Size (map Push items) (make slots))) /\
    size Size (snd (run Size (map Push items) (make slots))) = Size).
  { intros items Hlen.
    destruct (run_pushes items (make slots) Hr0) as (Htr & Hr & Hs); [lia|].
    split; [done|]. split; [done|]. lia. }
  split; [|split; [|split]].
  - intros items y Hlen. destruct (Hfull items Hlen) as (Htr & Hr & Hs).
    rewrite run_calls_app. cbn [fst]. rewrite Htr. f_equal.
    rewrite run_calls_cons. cbn [fst snd step run].
    destruct (push_spec y _ Hr) as (_ & Hok & _).
    destruct (fst (push Size y _)); [|done].
    destruct Hok as [Hok _]. specialize (Hok eq_refl). lia.
  - intros items y item x z Hlen Hpos.
    destruct (Hfull items Hlen) as (Htr & Hr & Hs).
    rewrite run_calls_app. cbn [fst]. rewrite Htr. f_equal.
    set (rb := snd (run Size (map Push items) (make slots))) in *.
    rewrite !run_calls_cons. cbn [fst snd run].
    destruct (step_spec (Push y) rb Hr) as [Hr1 Hs1].
    destruct (push_spec y rb Hr) as (_ & Hok1 & _).
    assert (H1 : fst (step Size (Push y) rb) = false).
    { cbn [step]. destruct (fst (push Size y rb)); [|done].
      destruct Hok1 as [Hok1 _]. specialize (Hok1 eq_refl). lia. }
    rewrite H1 in *. cbn [is_push negb andb] in Hs1.
    set (rb1 := snd (step Size (Push y) rb)) in *.
    destruct (step_spec (Pop item) rb1 Hr1) as [Hr2 Hs2].
    destruct (pop_spec item rb1 Hr1) as (_ & Hok2 & _).
    assert (H2 : fst (step Size (Pop item) rb1) = true).
    { cbn [step]. destruct (pop Size item rb1) as [[ok v] rb']. cbn [fst] in *.
      apply Hok2. lia. }
    rewrite H2 in *. cbn [is_push negb andb] in Hs2.
    set (rb2 := snd (step Size (Pop item) rb1)) in *.
    destruct (step_spec (Push x) rb2 Hr2) as [Hr3 Hs3].
    destruct (push_spec x rb2 Hr2) as (_ & Hok3 & _).
    assert (H3 : fst (step Size (Push x) rb2) = true).
    { cbn [step]. apply Hok3. lia. }
    rewrite H3 in *. cbn [is_push negb andb] in Hs3.
    set (rb3 := snd (step Size (Push x) rb2)) in *.
    destruct (push_spec z rb3 Hr3) as (_ & Hok4 & _).
    assert (H4 : fst (step Size (Push z) rb3) = false).
    { cbn [step]. destruct (fst (push Size z rb3)); [|done].
      destruct Hok4 as [Hok4 _]. specialize (Hok4 eq_refl). lia. }
    by rewrite H4.
  - intros cs item x Hpop.
    destruct (run_spec cs (make slots) Hr0) as [Hr _].
    set (rb := snd (run Size cs (make slots))) in *.
    destruct (pop_spec item rb Hr) as (Hr1 & Hok & Hs1).
    rewrite Hpop in Hs1.
    destruct (push_spec x _ Hr1) as (_ & Hok2 & _).
    apply Hok2. pose proof (size_bounds rb Hr). lia.
  - intros cs.
    destruct (run_spec cs (make slots) Hr0) as [Hr Hs].
    pose proof (size_bounds _ Hr). rewrite Hs0 in Hs. lia.
Qed.

End Sequential.

Lemma ring_buffer_capacity_witness :
  fst (run 3 (map Push [10; 20; 30] ++ [Push 40]) (make [0; 0; 0; 0]))
  = map (fun x => (Push x, true)) [10; 20; 30] ++ [(Push 40, false)].
Proof.
  apply (ring_buffer_capacity 3 ltac:(lia) ltac:(lia) [0; 0; 0; 0]).
  reflexivity.
Defined.

(** The test [Overfill], evaluated. *)
Example overfill_test :
  map snd (fst (run 3 [Push 1; Push 2; Push 3; Push 4; Pop 0; Push 4]
                  (make [0; 0; 0; 0])))
  = [true; true; true; false; true; true].
Proof. reflexivity. Qed.

End BufferFacts.

(** ** The thread pool's queue *)

Module PoolFacts.
Import ThreadPool.

Section Pool.

Variable task : Type.

Lemma enqueue_stopped (f : task) p :
  stop_ p = true ->
  enqueue f p = inl (runtime_error "enqueue on stopped ThreadPool").
Proof. unfold enqueue. by intros ->. Qed.

Lemma enqueue_running (f : task) p :
  stop_ p = false ->
  enqueue f p = inr {| tasks_ := tasks_ p ++ [f]; stop_ := false |}.
Proof. unfold enqueue. by intros ->. Qed.

(** Nothing clears the flag. *)
Lemma after_event_stopped (e : event task) p :
  stop_ p = true -> stop_ (after_event e p) = true.
Proof.
  intros Hstop. destruct e as [f| |]; cbn [after_event].
  - by rewrite enqueue_stopped.
  - unfold worker_take. by destruct (tasks_ p).
  - done.
Qed.

Lemma after_events_stopped (es : list (event task)) : forall p,
  stop_ p = true -> stop_ (after_events es p) = true.
Proof.
  induction es as [|e es IH]; intros p Hstop; [done|].
  change (after_events (e :: es) p)
    with (after_events es (after_event e p)).
  by apply IH, after_event_stopped.
Qed.

(** C9.  Once the destructor has set the stop flag, and whatever the
    workers and other callers have done since, [enqueue] throws the
    runtime error [enqueue on stopped ThreadPool] and the task is not
    queued. *)
Theorem enqueue_after_stop (p : t task) (es : list (event task))
    (f : task) :
  enqueue f (after_events es (begin_destruction p))
    = inl (runtime_error "enqueue on stopped ThreadPool") /\
  tasks_ (after_event (Enqueue f) (after_events es (begin_destruction p)))
    = tasks_ (after_events es (begin_destruction p)).
Proof.
  assert (Hstop : stop_ (after_events es (begin_destruction p)) = true)
    by by apply after_events_stopped.
  split.
  - by apply enqueue_stopped.
  - cbn [after_event]. by rewrite enqueue_stopped.
Qed.

End Pool.

(** Before destruction begins the same call queues the task. *)
Example enqueue_before_stop :
  enqueue 7 (after_events [Enqueue 1; WorkerTake; Enqueue 2] make)
  = inr {| tasks_ := [2; 7]; stop_ := false |}.
Proof. reflexivity. Qed.

End PoolFacts.

(** ** The columnar table *)

Module TableFacts.
Import ColumnarTable.

Lemma length_resize n (c : list (list Z)) : length (resize n c) = n.
Proof.
  unfold resize. rewrite length_app, length_take, length_replicate. lia.
Qed.

Lemma resize_grow n (c : list (list Z)) :
  length c <= n -> resize n c = c ++ replicate (n - length c) [].
Proof. intros H. unfold resize. by rewrite take_ge. Qed.

(** The two [resize] steps of [addRow] together only append empty
    columns, up to the width of the row. *)
Lemma addRow_resized (row : list Z) (c : list (list Z)) :
  (let columns1 :=
     match c with [] => resize (length row) c | _ :: _ => c end in
   if (length columns1 <? length row)%nat then resize (length row) columns1
   else columns1)
  = c ++ replicate (length row - length c) [].
Proof.
  destruct c as [|col c]; cbv zeta.
  - rewrite length_resize, Nat.ltb_irrefl. by rewrite resize_grow by (simpl; lia).
  - destruct (Nat.ltb_spec (length (col :: c)) (length row)) as [Hlt|Hge].
    + by rewrite resize_grow by lia.
    + replace (length row - length (col :: c)) with 0 by lia.
      by rewrite app_nil_r.
Qed.

(** The loop over the cells of a row. *)
Lemma push_cells_length (row : list Z) n : forall c : list (list Z),
  length (foldl (push_cell row) c (seq 0 n)) = length c.
Proof.
  induction n as [|n IH]; intros c; [done|].
  rewrite seq_S, foldl_app. cbn [foldl]. unfold push_cell at 1.
  destruct (row !! (0 + n)); [|apply IH].
  by rewrite length_alter, IH.
Qed.

Lemma push_cells_lookup (row : list Z) n : forall (c : list (list Z)) i,
  n <= length row ->
  foldl (push_cell row) c (seq 0 n) !! i
  = if (i <? n)%nat
    then (fun col => col ++ option_list (row !! i)) <$> c !! i
    else c !! i.
Proof.
  induction n as [|n IH]; intros c i Hn; [done|].
  rewrite seq_S, foldl_app. cbn [foldl]. unfold push_cell at 1.
  destruct (lookup_lt_is_Some_2 row n) as [cell Hcell]; [lia|].
  change (0 + n) with n. rewrite Hcell.
  destruct (decide (i = n)) as [->|Hne].
  - rewrite list_lookup_alter_eq, IH by lia.
    rewrite Nat.ltb_irrefl.
    replace (n <? S n)%nat with true by (symmetry; apply Nat.ltb_lt; lia).
    rewrite Hcell. done.
  - rewrite list_lookup_alter_ne by done. rewrite IH by lia.
    destruct (Nat.ltb_spec i n), (Nat.ltb_spec i (S n)); try lia; done.
Qed.

Lemma addRows_snoc rows row : addRows (rows ++ [row]) = addRow row (addRows rows).
Proof. unfold addRows. by rewrite foldl_app. Qed.

Lemma width_snoc rows (row : list Z) :
  width (rows ++ [row]) = Nat.max (width rows) (length row).
Proof.
  induction rows as [|r rows IH]; simpl; [lia|].
  fold (width (rows ++ [row])). fold (width rows). rewrite IH. lia.
Qed.

Lemma cells_beyond_width rows i :
  width rows <= i -> omap (fun row : list Z => row !! i) rows = [].
Proof.
  induction rows as [|r rows IH]; simpl; [done|].
  fold (width rows). intros Hw.
  rewrite lookup_ge_None_2 by lia. apply IH. lia.
Qed.

(** A row leaves every column as [addRow] found it, with the row's cell
    appended where the row is wide enough. *)
Lemma addRow_lookup (row : list Z) (c : list (list Z)) i :
  addRow row c !! i
  = if (i <? Nat.max (length c) (length row))%nat
    then Some (default [] (c !! i) ++ option_list (row !! i))
    else None.
Proof.
  unfold addRow. rewrite addRow_resized.
  rewrite push_cells_lookup by done.
  set (c' := c ++ replicate (length row - length c) []).
  assert (Hlen : length c' = Nat.max (length c) (length row)).
  { unfold c'. rewrite length_app, length_replicate. lia. }
  assert (Hc' : c' !! i = if (i <? Nat.max (length c) (length row))%nat
                          then Some (default [] (c !! i)) else None).
  { destruct (Nat.ltb_spec i (Nat.max (length c) (length row))) as [Hi|Hi].
    - unfold c'. destruct (decide (i < length c)) as [Hic|Hic].
      + rewrite lookup_app_l by done.
        by destruct (lookup_lt_is_Some_2 c i Hic) as [col ->].
      + rewrite lookup_app_r by lia.
        rewrite (lookup_ge_None_2 c i) by lia.
        by rewrite lookup_replicate_2 by lia.
    - apply lookup_ge_None_2. lia. }
  rewrite Hc'.
  destruct (Nat.ltb_spec i (length row)) as [Hir|Hir];
    destruct (Nat.ltb_spec i (Nat.max (length c) (length row))); try lia;
    try done.
  by rewrite (lookup_ge_None_2 row i), app_nil_r by lia.
Qed.

Lemma addRows_lookup rows i :
  addRows rows !! i
  = if (i <? width rows)%nat
    then Some (omap (fun row : list Z => row !! i) rows)
    else None.
Proof.
  induction rows as [|row rows IH] using rev_ind; [done|].
  assert (Hlen : length (addRows rows) = width rows).
  { clear IH. induction rows as [|r rows IH] using rev_ind; [done|].
    rewrite addRows_snoc, width_snoc. unfold addRow.
    rewrite addRow_resized, push_cells_length, length_app, length_replicate.
    lia. }
  rewrite addRows_snoc, addRow_lookup, Hlen, width_snoc, IH.
  destruct (Nat.ltb_spec i (Nat.max (width rows) (length row))) as [Hi|Hi];
    [|done].
  f_equal. rewrite omap_app. f_equal.
  destruct (Nat.ltb_spec i (width rows)); [done|].
  cbn [default]. by rewrite cells_beyond_width.
Qed.

(** X1.  After any sequence of [addRow] calls on an empty table the
    table has as many columns as the widest row had cells; [getColumn(i)]
    throws for any other [i], and otherwise yields, in row order, the
    [i]-th cell of every row that has one.  (Rows of one width give the
    transposed table; a shorter row leaves no gap in the columns it does
    not reach.) *)
Theorem getColumn_addRows (rows : list (list Z)) (i : nat) :
  length (addRows rows) = width rows /\
  getColumn i (addRows rows)
  = if (i <? width rows)%nat
    then Some (omap (fun row : list Z => row !! i) rows)
    else None.
Proof.
  split; [|apply addRows_lookup].
  apply Nat.le_antisymm.
  - apply Nat.nlt_ge. intros Hlt.
    pose proof (addRows_lookup rows (width rows)) as Hl.
    rewrite Nat.ltb_irrefl in Hl. apply lookup_ge_None_1 in Hl. lia.
  - destruct (width rows) as [|w] eqn:Hw; [lia|].
    pose proof (addRows_lookup rows w) as Hl. rewrite Hw in Hl.
    replace (w <? S w)%nat with true in Hl
      by (symmetry; apply Nat.ltb_lt; lia).
    apply lookup_lt_Some in Hl. lia.
Qed.

Lemma first_cells_length rows :
  length (omap (fun row : list Z => row !! 0) rows)
  = length (List.filter has_cells rows).
Proof.
  induction rows as [|[|cell row] rows IH]; simpl;
    [done|exact IH|f_equal; exact IH].
Qed.

Lemma width_zero rows : width rows = 0 -> List.filter has_cells rows = [].
Proof.
  induction rows as [|[|cell row] rows IH]; simpl; [done| |].
  - fold (width rows). intros H. apply IH. lia.
  - fold (width rows). lia.
Qed.

(** X2.  [getNumRows] is the length of column 0, so after any sequence
    of [addRow] calls on an empty table it is the number of rows that
    had at least one cell: empty rows are not counted. *)
Theorem getNumRows_addRows (rows : list (list Z)) :
  getNumRows (addRows rows) = length (List.filter has_cells rows).
Proof.
  pose proof (addRows_lookup rows 0) as Hl.
  destruct (width rows) as [|w] eqn:Hw.
  - rewrite (width_zero rows Hw). cbn [Nat.ltb Nat.leb] in Hl.
    by destruct (addRows rows).
  - cbn [Nat.ltb Nat.leb] in Hl.
    destruct (addRows rows) as [|col0 c]; [done|].
    cbn [getNumRows]. injection Hl as ->. apply first_cells_length.
Qed.

Lemma count_less_filter value (col : list Z) :
  count_less value col
  = wrap (Z.of_nat (length (List.filter (fun cell => (cell <? value)%Z) col))).
Proof.
  unfold count_less.
  induction col as [|cell col IH] using rev_ind; [done|].
  rewrite foldl_app, List.filter_app, length_app. cbn [foldl List.filter].
  rewrite IH. destruct (cell <? value)%Z; cbn [length].
  - unfold wrap. rewrite Z.add_mod_idemp_l by lia. f_equal. lia.
  - f_equal. lia.
Qed.

Lemma omap_cons_eq {A B} (f : A -> option B) (x : A) (l : list A) :
  omap f (x :: l)
  = match f x with Some y => y :: omap f l | None => omap f l end.
Proof. reflexivity. Qed.

Lemma filter_cells i value rows :
  List.filter (fun cell => (cell <? value)%Z)
    (omap (fun row : list Z => row !! i) rows)
  = omap (fun row : list Z => row !! i) (List.filter (cell_less i value) rows).
Proof.
  induction rows as [|row rows IH]; [done|].
  rewrite omap_cons_eq. cbn [List.filter]. unfold cell_less at 1.
  destruct (row !! i) as [cell|] eqn:Hc; [|done].
  cbn [List.filter]. destruct (cell <? value)%Z; [|done].
  by rewrite omap_cons_eq, Hc, IH.
Qed.

Lemma cells_length i value rows :
  length (omap (fun row : list Z => row !! i)
            (List.filter (cell_less i value) rows))
  = length (List.filter (cell_less i value) rows).
Proof.
  induction rows as [|row rows IH]; [done|].
  cbn [List.filter]. destruct (cell_less i value row) eqn:E; [|done].
  unfold cell_less in E. destruct (row !! i) as [cell|] eqn:Hc; [|done].
  rewrite omap_cons_eq, Hc. cbn [length]. by rewrite IH.
Qed.

Lemma no_cells_beyond_width i value rows :
  width rows <= i -> List.filter (cell_less i value) rows = [].
Proof.
  induction rows as [|row rows IH]; [done|].
  simpl. fold (width rows). intros Hw. unfold cell_less at 1.
  rewrite lookup_ge_None_2 by lia. apply IH. lia.
Qed.

(** X3.  After any sequence of [addRow] calls on an empty table,
    [filterLessThan(i, value)] is the number of rows whose [i]-th cell
    exists and is less than [value] (as a [size_t], so modulo [2^64]); it
    is 0 for a column index that no row reaches; and for an index within
    the table it is what [filterLessThanGPU] (built without CUDA)
    returns for [getColumn(i)]. *)
Theorem filterLessThan_addRows (rows : list (list Z)) (i : nat) (value : Z) :
  filterLessThan i value (addRows rows)
    = wrap (Z.of_nat (length (List.filter (cell_less i value) rows))) /\
  (if (i <? width rows)%nat
   then exists col,
     getColumn i (addRows rows) = Some col /\
     filterLessThan i value (addRows rows) = filterLessThanGPU col value
   else filterLessThan i value (addRows rows) = 0%Z).
Proof.
  unfold filterLessThan, getColumn, filterLessThanGPU.
  rewrite addRows_lookup.
  destruct (Nat.ltb_spec i (width rows)) as [Hi|Hi].
  - split; [|by eexists].
    by rewrite count_less_filter, filter_cells, cells_length.
  - split; [|done]. by rewrite no_cells_beyond_width.
Qed.

(** The table of the unit test, with a short row added: the row count
    and the columns no longer agree. *)
Example ragged_rows :
  getNumRows (addRows [[100; 2000]; []; [150]; [90; 999]]%Z) = 3 /\
  getColumn 1 (addRows [[100; 2000]; []; [150]; [90; 999]]%Z)
    = Some [2000; 999]%Z.
Proof. by vm_compute. Qed.

End TableFacts.

(** ** Replay, recovery and the server loop *)

Module RecoveryFacts.
Import IStream WriteAheadLog StreamFacts WalFacts DistributedNode.

(** Whatever the bytes of the file, the loop leaves, and what it does to
    the store is a sequence of puts and removes fixed by the file. *)
Lemma replay_loop_mutations fuel : forall ins cmd,
  String.length (rest ins) < fuel ->
  exists ops, forall st,
    replay_loop fuel ins cmd st = Some (CHM.apply_all ops st).
Proof.
  induction fuel as [|f IH]; intros ins cmd H; [lia|].
  cbn [replay_loop]. loop_cases ins cmd.
  - by exists [].
  - match goal with
    | |- exists _, forall st, replay_loop _ ?i ?c (CHM.put ?k ?v st) = _ =>
        destruct (IH i c) as [ops Hops]; [lia|];
        exists (CHM.Put k v :: ops)
    end.
    intros st. apply Hops.
  - match goal with
    | |- exists _, forall st,
           replay_loop _ ?i ?c (snd (CHM.remove ?k st)) = _ =>
        destruct (IH i c) as [ops Hops]; [lia|];
        exists (CHM.Remove k :: ops)
    end.
    intros st. apply Hops.
  - match goal with
    | |- exists _, forall st, replay_loop _ ?i ?c st = _ =>
        destruct (IH i c) as [ops Hops]; [lia|]; exists ops
    end.
    done.
Qed.

Lemma replay_mutations file :
  exists ops, forall st, replay file st = Some (CHM.apply_all ops st).
Proof. apply replay_loop_mutations. simpl. lia. Qed.

(** A key after a history: what the history says, or else what the
    store held. *)
Lemma lookup_apply_all k ops : forall m : gmap string string,
  CHM.apply_all ops m !! k = default (m !! k) (CHM.outcome k ops).
Proof.
  induction ops as [|o ops IH]; intros m; [done|].
  change (CHM.apply_all (o :: ops) m)
    with (CHM.apply_all ops (CHM.apply o m)).
  rewrite IH. cbn [CHM.outcome].
  destruct (CHM.outcome k ops) as [r|]; [done|].
  destruct o as [k' v|k']; cbn [CHM.apply]; case_decide; subst; cbn [default].
  - apply lookup_insert_eq.
  - by apply lookup_insert_ne.
  - apply lookup_delete_eq.
  - by apply lookup_delete_ne.
Qed.

Lemma apply_all_twice ops (m : gmap string string) :
  CHM.apply_all ops (CHM.apply_all ops m) = CHM.apply_all ops m.
Proof.
  apply map_eq. intros k. rewrite !lookup_apply_all.
  by destruct (CHM.outcome k ops).
Qed.

(** X4.  [replay] terminates on every file, whatever its bytes and
    whatever the store holds, and replaying the same file into the
    resulting store changes nothing. *)
Theorem replay_twice (file : string) (st : gmap string string) :
  exists st1, replay file st = Some st1 /\ replay file st1 = Some st1.
Proof.
  destruct (replay_mutations file) as [ops Hops].
  exists (CHM.apply_all ops st). split; [apply Hops|].
  by rewrite Hops, apply_all_twice.
Qed.

(** X5.  [replay] never reads the store: what a key maps to after the
    replay of a file depends only on the file and on what the key mapped
    to before.  In particular two stores that agree on a key still agree
    on it after replaying the same file. *)
Theorem replay_key_wise (file : string) (st st' : gmap string string)
    (k : string) :
  st !! k = st' !! k ->
  exists m m',
    replay file st = Some m /\ replay file st' = Some m' /\
    m !! k = m' !! k.
Proof.
  intros Hk. destruct (replay_mutations file) as [ops Hops].
  exists (CHM.apply_all ops st), (CHM.apply_all ops st').
  split; [apply Hops|]. split; [apply Hops|].
  by rewrite !lookup_apply_all, Hk.
Qed.

Lemma replay_key_wise_witness :
  exists m m',
    replay ("PUT a 1" +:+ nl +:+ "REMOVE b") (<["c" := "3"]> ∅) = Some m /\
    replay ("PUT a 1" +:+ nl +:+ "REMOVE b")
      (<["c" := "3"]> (<["b" := "2"]> ∅)) = Some m' /\
    m !! "c" = m' !! "c".
Proof. apply replay_key_wise. reflexivity. Defined.

(** *** Recovery *)

Lemma replay_log_all_into ops st :
  Forall (fun o => op_tokens o = true) ops ->
  replay (log_all ops EmptyString) st = Some (CHM.apply_all ops st).
Proof.
  intros Hops. rewrite replay_is_replay_from.
  destruct (replay_from_records ops EmptyString EmptyString EmptyString st)
    as (w' & cmd' & Hw' & Heq); [done..|].
  rewrite append_nil_l, append_nil_r in Heq. rewrite Heq.
  rewrite append_nil_r. by apply replay_from_eof.
Qed.

Lemma construct_in_step ops n :
  Forall (fun o => op_tokens o = true) ops ->
  construct (log_all ops EmptyString) = Some n -> in_step n.
Proof.
  intros Hops. unfold construct. rewrite replay_log_all_into by done.
  intros [= <-]. by exists ops.
Qed.

Lemma in_step_construct n : in_step n -> construct (wal_ n) = Some n.
Proof.
  intros (ops & Hops & Hwal & Hstore). unfold construct.
  rewrite Hwal, replay_log_all_into by done. rewrite <- Hstore, <- Hwal.
  by destruct n.
Qed.

Lemma log_all_snoc ops o file :
  log_all (ops ++ [o]) file = log o (log_all ops file).
Proof. unfold log_all. by rewrite foldl_app. Qed.

Lemma apply_all_snoc' ops o (m : gmap string string) :
  CHM.apply_all (ops ++ [o]) m = CHM.apply o (CHM.apply_all ops m).
Proof. unfold CHM.apply_all. by rewrite foldl_app. Qed.

Lemma call_in_step o n :
  op_tokens o = true -> in_step n -> in_step (call o n).
Proof.
  intros Ho (ops & Hops & Hwal & Hstore). exists (ops ++ [o]).
  split; [apply Forall_app; split; [done|by constructor]|].
  rewrite log_all_snoc, apply_all_snoc', <- Hwal, <- Hstore.
  by destruct o.
Qed.

Lemma calls_in_step os : forall n,
  Forall (fun o => op_tokens o = true) os -> in_step n ->
  in_step (calls os n).
Proof.
  induction os as [|o os IH]; intros n Hos Hn; [done|].
  inversion Hos; subst.
  change (calls (o :: os) n) with (calls os (call o n)).
  apply IH; [done|]. by apply call_in_step.
Qed.

(** X6.  Restart recovery.  A node constructed on a log of complete
    records, and then used through [put] and [removeKey] with keys and
    values that are non-empty and free of whitespace, can be constructed
    again from its log file at any time: the constructor's replay
    rebuilds exactly the store the node holds. *)
Theorem restart_recovers (ops0 ops : list CHM.op) (n0 : node) :
  Forall (fun o => op_tokens o = true) ops0 ->
  Forall (fun o => op_tokens o = true) ops ->
  construct (log_all ops0 EmptyString) = Some n0 ->
  construct (wal_ (calls ops n0)) = Some (calls ops n0).
Proof.
  intros Hops0 Hops Hn0. apply in_step_construct, calls_in_step; [done|].
  by apply (construct_in_step ops0).
Qed.

Lemma restart_recovers_witness :
  construct
    (wal_ (calls [CHM.Put "IBM" "140.25"; CHM.Remove "AAPL"]
             {| dataStore_ := <["AAPL" := "179.33"]> ∅;
                wal_ := log_all [CHM.Put "AAPL" "179.33"] EmptyString |}))
  = Some (calls [CHM.Put "IBM" "140.25"; CHM.Remove "AAPL"]
            {| dataStore_ := <["AAPL" := "179.33"]> ∅;
               wal_ := log_all [CHM.Put "AAPL" "179.33"] EmptyString |}).
Proof.
  apply (restart_recovers [CHM.Put "AAPL" "179.33"]).
  - repeat constructor.
  - repeat constructor.
  - by vm_compute.
Defined.

(** *** The server loop *)

Lemma handleClient_command n c :
  command_tokens c = true ->
  handleClient n (command_line c) =
  {| after := match mutation c with Some o => call o n | None => n end;
     sent := match c with
             | CmdGet k =>
                 match get k n with
                 | Some val => ["VALUE " +:+ val +:+ nl]
                 | None => ["NOT_FOUND" +:+ nl]
                 end
             | _ => []
             end;
     closed := true |}.
Proof.
  destruct c as [k v|k|k]; cbn [command_tokens]; intros Ht.
  - apply andb_true_iff in Ht as [Hk Hv].
    by apply (NodeFacts.handleClient_put n EmptyString k v nl).
  - by apply (NodeFacts.handleClient_remove n EmptyString k nl).
  - by apply (NodeFacts.handleClient_get n EmptyString k nl).
Qed.

Lemma runServer_cons request requests n :
  runServer (request :: requests) n
  = (fst (runServer requests (after (handleClient n request))),
     sent (handleClient n request)
     :: snd (runServer requests (after (handleClient n request)))).
Proof.
  cbn [runServer].
  by destruct (runServer requests (after (handleClient n request))).
Qed.

Lemma runServer_app requests1 requests2 : forall n,
  runServer (requests1 ++ requests2) n
  = (fst (runServer requests2 (fst (runServer requests1 n))),
     snd (runServer requests1 n)
     ++ snd (runServer requests2 (fst (runServer requests1 n)))).
Proof.
  induction requests1 as [|r rs IH]; intros n.
  - cbn [app runServer fst snd]. by destruct (runServer requests2 n).
  - rewrite <- app_comm_cons, !runServer_cons, IH. reflexivity.
Qed.

(** Serving well-formed command lines is calling [put] and [removeKey]
    for the commands that ask for it. *)
Lemma runServer_commands cmds : forall n,
  Forall (fun c => command_tokens c = true) cmds ->
  fst (runServer (map command_line cmds) n) = calls (omap mutation cmds) n.
Proof.
  induction cmds as [|c cmds IH]; intros n Hcmds; [done|].
  inversion Hcmds as [|? ? Hc Hcmds']; subst.
  cbn [map]. rewrite runServer_cons. cbn [fst].
  rewrite (handleClient_command n c Hc). cbn [after].
  rewrite IH by done. by destruct c.
Qed.

Lemma mutation_tokens cmds :
  Forall (fun c => command_tokens c = true) cmds ->
  Forall (fun o => op_tokens o = true) (omap mutation cmds).
Proof.
  induction 1 as [|c cmds Hc _ IH]; [constructor|].
  destruct c; cbn; [constructor|constructor|]; done.
Qed.

(** Recovery after handling requests that were received whole. *)
Lemma restart_recovers_received (ops0 : list CHM.op) (cmds : list command)
    (n0 : node) :
  Forall (fun o => op_tokens o = true) ops0 ->
  Forall (fun c => command_tokens c = true) cmds ->
  construct (log_all ops0 EmptyString) = Some n0 ->
  construct (wal_ (fst (runServer (map command_line cmds) n0)))
  = Some (fst (runServer (map command_line cmds) n0)).
Proof.
  intros Hops0 Hcmds Hn0. rewrite runServer_commands by done.
  apply in_step_construct, calls_in_step.
  - by apply mutation_tokens.
  - by apply (construct_in_step ops0).
Qed.

(** A line of at most 1023 bytes is received whole. *)
Lemma substring_whole s : forall m,
  (String.length s <= m)%nat -> substring 0 m s = s.
Proof.
  induction s as [|c s IH]; intros [|m] Hm; simpl in *; try done; try lia.
  f_equal. apply IH. lia.
Qed.

Lemma recv_fitting c : line_fits c = true -> recv (command_line c) = command_line c.
Proof.
  unfold line_fits, recv. intros H%Nat.leb_le. by apply substring_whole.
Qed.

Lemma serve_fitting cmds n :
  Forall (fun c => line_fits c = true) cmds ->
  serve (map command_line cmds) n = runServer (map command_line cmds) n.
Proof.
  intros Hfit. unfold serve. f_equal.
  induction Hfit as [|c cmds Hc _ IH]; [done|].
  cbn [map]. by rewrite IH, recv_fitting.
Qed.

(** X7.  Recovery after serving clients.  A node constructed on a log
    of complete records that then serves any number of connections, on
    each of which the client wrote one complete command line ([PUT k v],
    [REMOVE k] or [GET k] with whitespace-free words) of at most 1023
    bytes, the size that the handler's one [recv] reads, can be
    constructed again from its log file: the replay rebuilds exactly the
    store the node holds when the server loop is left. *)
Theorem restart_recovers_served (ops0 : list CHM.op) (cmds : list command)
    (n0 : node) :
  Forall (fun o => op_tokens o = true) ops0 ->
  Forall (fun c => command_tokens c = true) cmds ->
  Forall (fun c => line_fits c = true) cmds ->
  construct (log_all ops0 EmptyString) = Some n0 ->
  construct (wal_ (fst (serve (map command_line cmds) n0)))
  = Some (fst (serve (map command_line cmds) n0)).
Proof.
  intros Hops0 Hcmds Hfit Hn0. rewrite serve_fitting by done.
  by apply (restart_recovers_received ops0).
Qed.

Lemma restart_recovers_served_witness :
  construct
    (wal_ (fst (serve
                  (map command_line
                     [CmdPut "IBM" "140.25"; CmdGet "IBM"; CmdRemove "IBM"])
                  {| dataStore_ := ∅; wal_ := EmptyString |})))
  = Some (fst (serve
                 (map command_line
                    [CmdPut "IBM" "140.25"; CmdGet "IBM"; CmdRemove "IBM"])
                 {| dataStore_ := ∅; wal_ := EmptyString |})).
Proof.
  apply (restart_recovers_served []).
  - constructor.
  - repeat constructor.
  - repeat constructor.
  - by vm_compute.
Defined.

Lemma calls_store os : forall n,
  dataStore_ (calls os n) = CHM.apply_all os (dataStore_ n).
Proof.
  induction os as [|o os IH]; intros n; [done|].
  change (calls (o :: os) n) with (calls os (call o n)).
  rewrite IH. by destruct o.
Qed.

Lemma outcome_untouched k cmds :
  Forall (fun c => ~ writes k c) cmds ->
  CHM.outcome k (omap mutation cmds) = None.
Proof.
  induction 1 as [|c cmds Hc _ IH]; [done|].
  destruct c as [k' v|k'|k']; cbn in Hc |- *; [| |done].
  - fold (omap mutation cmds). rewrite IH. by case_decide.
  - fold (omap mutation cmds). rewrite IH. by case_decide.
Qed.

(** The answer to a [GET] that follows a first command and then
    commands that do not write the key. *)
Lemma runServer_then_get first cmds k n :
  command_tokens first = true ->
  Forall (fun c => command_tokens c = true) cmds ->
  is_token k = true ->
  Forall (fun c => ~ writes k c) cmds ->
  last (snd (runServer
               (map command_line (first :: cmds ++ [CmdGet k])) n))
  = Some match default (dataStore_ n !! k)
                 (CHM.outcome k (omap mutation [first])) with
         | Some val => ["VALUE " +:+ val +:+ nl]
         | None => ["NOT_FOUND" +:+ nl]
         end.
Proof.
  intros Hfirst Hcmds Hk Hother.
  change (first :: cmds ++ [CmdGet k]) with ((first :: cmds) ++ [CmdGet k]).
  rewrite map_app, runServer_app. cbn [snd].
  set (n1 := fst (runServer (map command_line (first :: cmds)) n)).
  change (map command_line [CmdGet k]) with [command_line (CmdGet k)].
  rewrite (runServer_cons _ [] n1). cbn [snd runServer]. rewrite last_snoc.
  rewrite (handleClient_command _ (CmdGet k)) by done. cbn [sent].
  unfold n1. rewrite runServer_commands by by constructor.
  unfold get, ConcurrentHashMap.get.
  rewrite calls_store, lookup_apply_all.
  cbn [omap list_omap]. change (list_omap _ _ mutation cmds)
    with (omap mutation cmds).
  assert (Hout : CHM.outcome k (omap mutation (first :: cmds))
                 = CHM.outcome k (omap mutation [first])).
  { pose proof (outcome_untouched k cmds Hother) as Hnone.
    destruct first as [k' v|k'|k']; cbn; fold (omap mutation cmds);
      by rewrite Hnone. }
  cbn [omap list_omap] in Hout. by rewrite Hout.
Qed.

(** Read your writes, for requests that were received whole. *)
Lemma get_after_write_received (n : node) (k v : string)
    (cmds : list command) :
  is_token k = true -> is_token v = true ->
  Forall (fun c => command_tokens c = true) cmds ->
  Forall (fun c => ~ writes k c) cmds ->
  last (snd (runServer
               (map command_line (CmdPut k v :: cmds ++ [CmdGet k])) n))
    = Some ["VALUE " +:+ v +:+ nl] /\
  last (snd (runServer
               (map command_line (CmdRemove k :: cmds ++ [CmdGet k])) n))
    = Some ["NOT_FOUND" +:+ nl].
Proof.
  intros Hk Hv Hcmds Hother. split.
  - rewrite (runServer_then_get (CmdPut k v)); try done.
    + cbn. by case_decide.
    + cbn. by rewrite Hk, Hv.
  - rewrite (runServer_then_get (CmdRemove k)); try done.
    cbn. by case_decide.
Qed.

Lemma get_line_fits_put k v :
  line_fits (CmdPut k v) = true -> line_fits (CmdGet k) = true.
Proof.
  unfold line_fits. intros H%Nat.leb_le. apply Nat.leb_le.
  cbn [command_line] in *. rewrite !length_append in *. simpl in *. lia.
Qed.

Lemma get_line_fits_remove k :
  line_fits (CmdRemove k) = true -> line_fits (CmdGet k) = true.
Proof.
  unfold line_fits. intros H%Nat.leb_le. apply Nat.leb_le.
  cbn [command_line] in *. rewrite !length_append in *. simpl in *. lia.
Qed.

(** X8.  Read your writes over the wire.  All command lines are
    complete, with whitespace-free words, and of at most 1023 bytes, the
    size that the handler's one [recv] reads.  After a connection on
    which [PUT k v] was written, and any number of further connections
    with command lines that neither put nor remove [k], a connection
    with [GET k] is answered [VALUE v]; after [REMOVE k] instead of the
    [PUT] it is answered [NOT_FOUND]. *)
Theorem get_after_write (n : node) (k v : string) (cmds : list command) :
  is_token k = true -> is_token v = true ->
  Forall (fun c => command_tokens c = true) cmds ->
  Forall (fun c => line_fits c = true) cmds ->
  Forall (fun c => ~ writes k c) cmds ->
  (line_fits (CmdPut k v) = true ->
   last (snd (serve
                (map command_line (CmdPut k v :: cmds ++ [CmdGet k])) n))
     = Some ["VALUE " +:+ v +:+ nl]) /\
  (line_fits (CmdRemove k) = true ->
   last (snd (serve
                (map command_line (CmdRemove k :: cmds ++ [CmdGet k])) n))
     = Some ["NOT_FOUND" +:+ nl]).
Proof.
  intros Hk Hv Hcmds Hfit Hother.
  destruct (get_after_write_received n k v cmds Hk Hv Hcmds Hother)
    as [Hput Hrem].
  split; intros Hline.
  - rewrite serve_fitting; [done|].
    constructor; [done|]. apply Forall_app. split; [done|].
    constructor; [by apply (get_line_fits_put k v)|constructor].
  - rewrite serve_fitting; [done|].
    constructor; [done|]. apply Forall_app. split; [done|].
    constructor; [by apply get_line_fits_remove|constructor].
Qed.

Lemma get_after_write_witness :
  last (snd (serve
               (map command_line
                  (CmdPut "IBM" "140.25"
                   :: [CmdPut "AAPL" "179.33"; CmdGet "AAPL"]
                   ++ [CmdGet "IBM"]))
               {| dataStore_ := ∅; wal_ := EmptyString |}))
    = Some ["VALUE " +:+ "140.25" +:+ nl] /\
  last (snd (serve
               (map command_line
                  (CmdRemove "IBM"
                   :: [CmdPut "AAPL" "179.33"; CmdGet "AAPL"]
                   ++ [CmdGet "IBM"]))
               {| dataStore_ := ∅; wal_ := EmptyString |}))
    = Some ["NOT_FOUND" +:+ nl].
Proof.
  destruct (get_after_write {| dataStore_ := ∅; wal_ := EmptyString |}
              "IBM" "140.25" [CmdPut "AAPL" "179.33"; CmdGet "AAPL"])
    as [Hput Hrem];
    [reflexivity|reflexivity|repeat constructor|repeat constructor| |].
  { repeat constructor; cbn; try discriminate; tauto. }
  split; [by apply Hput|by apply Hrem].
Defined.

(** Why the bound is there: a [PUT] line of 1026 bytes (a key of 1019)
    is cut after the key, so the empty value is stored and the log is
    out of step with the lines that were written. *)
Example long_line_is_cut :
  let k := String.concat EmptyString (replicate 1019 "k") in
  let served :=
    serve (map command_line [CmdPut k "v"; CmdGet k])
      {| dataStore_ := ∅; wal_ := EmptyString |} in
  line_fits (CmdPut k "v") = false /\
  last (snd served) = Some ["VALUE " +:+ nl] /\
  wal_ (fst served) = "PUT " +:+ k +:+ " " +:+ nl.
Proof. by vm_compute. Qed.

(** What one connection can do to the log and the socket, whatever its
    bytes. *)
Lemma handleClient_appends n request :
  (exists suffix,
     wal_ (after (handleClient n request)) = wal_ n +:+ suffix) /\
  length (sent (handleClient n request)) <= 1.
Proof.
  unfold handleClient.
  assert (Hsame : exists suffix, wal_ n = wal_ n +:+ suffix).
  { exists EmptyString. by rewrite append_nil_r. }
  destruct (0 <? String.length request)%nat; [|by split; [|simpl; lia]].
  destruct (extract (open request) EmptyString) as [iss1 cmd].
  destruct (String.eqb cmd "PUT").
  { destruct (extract iss1 EmptyString) as [iss2 key].
    destruct (extract iss2 EmptyString) as [iss3 value].
    split; [|simpl; lia]. by eexists. }
  destruct (String.eqb cmd "REMOVE").
  { destruct (extract iss1 EmptyString) as [iss2 key].
    split; [|simpl; lia]. by eexists. }
  destruct (String.eqb cmd "GET"); [|by split; [|simpl; lia]].
  destruct (extract iss1 EmptyString) as [iss2 key].
  by destruct (get key n); (split; [|simpl; lia]).
Qed.

(** X9.  The log is append-only and every connection is answered at
    most once, whatever clients send: after the server loop has handled
    any sequence of requests (any bytes), the log file is the log file
    from before followed by what was added; there is one (possibly
    empty) list of sent messages per connection, and none holds more
    than one message. *)
Theorem runServer_appends (requests : list string) (n : node) :
  (exists suffix, wal_ (fst (runServer requests n)) = wal_ n +:+ suffix) /\
  length (snd (runServer requests n)) = length requests /\
  Forall (fun msgs => length msgs <= 1) (snd (runServer requests n)).
Proof.
  revert n. induction requests as [|r rs IH]; intros n.
  - cbn. split; [|by split]. exists EmptyString. by rewrite append_nil_r.
  - rewrite runServer_cons. cbn [fst snd length].
    destruct (handleClient_appends n r) as [[s1 Hs1] Hsent].
    destruct (IH (after (handleClient n r))) as ([s2 Hs2] & Hlen & Hall).
    split; [|split].
    + exists (s1 +:+ s2). by rewrite Hs2, Hs1, append_assoc.
    + by rewrite Hlen.
    + by constructor.
Qed.

End RecoveryFacts.

(** ** More about the ring *)

Module RingMoreFacts.
Import ConsistentHashRing RingFacts.

(** Two ascending maps with the same lookups are the same map. *)
Lemma ascending_find_None h n m :
  ascending ((h, n) :: m) -> find h m = None.
Proof.
  intros [Hall Hasc]%ascending_cons.
  destruct (find h m) as [n'|] eqn:Hf; [|done].
  apply (find_In _ _ _ Hasc) in Hf. specialize (Hall _ _ Hf). lia.
Qed.

Lemma ascending_ext m1 : forall m2,
  ascending m1 -> ascending m2 ->
  (forall h, find h m1 = find h m2) -> m1 = m2.
Proof.
  induction m1 as [|[h1 n1] m1 IH]; intros [|[h2 n2] m2] Ha1 Ha2 Hfind.
  - done.
  - specialize (Hfind h2). simpl in Hfind. by rewrite N.eqb_refl in Hfind.
  - specialize (Hfind h1). simpl in Hfind. by rewrite N.eqb_refl in Hfind.
  - assert (Hin1 : In (h1, n1) ((h2, n2) :: m2)).
    { apply (find_In _ _ _ Ha2). rewrite <- Hfind. simpl.
      by rewrite N.eqb_refl. }
    assert (Hin2 : In (h2, n2) ((h1, n1) :: m1)).
    { apply (find_In _ _ _ Ha1). rewrite Hfind. simpl.
      by rewrite N.eqb_refl. }
    pose proof (ascending_head_least _ _ _ Ha2 _ _ Hin1) as Hle1.
    pose proof (ascending_head_least _ _ _ Ha1 _ _ Hin2) as Hle2.
    assert (h1 = h2) as -> by lia.
    pose proof (Hfind h2) as Hn. simpl in Hn. rewrite N.eqb_refl in Hn.
    injection Hn as ->. f_equal.
    pose proof (ascending_find_None _ _ _ Ha1) as Hn1.
    pose proof (ascending_find_None _ _ _ Ha2) as Hn2.
    apply ascending_cons in Ha1 as [_ Ha1], Ha2 as [_ Ha2].
    apply IH; [done..|]. intros h. specialize (Hfind h). simpl in Hfind.
    destruct (N.eqb_spec h h2) as [Heq|_]; [|done]. subst h. congruence.
Qed.

Section Hashed.

Variable hash : string -> N.

Lemma ring_ext (r1 r2 : ring) :
  ascending (ring_ r1) -> ascending (ring_ r2) ->
  numReplicas_ r1 = numReplicas_ r2 ->
  (forall h, find h (ring_ r1) = find h (ring_ r2)) -> r1 = r2.
Proof.
  intros Ha1 Ha2 Hn Hfind. destruct r1, r2; simpl in *. subst.
  f_equal. by apply ascending_ext.
Qed.

(** Every point holds a name that some call added. *)
Lemma run_points_added numReplicas cs : forall h n,
  In (h, n) (ring_ (run hash cs (make numReplicas))) -> In (AddNode n) cs.
Proof.
  induction cs as [|c cs IH] using rev_ind; intros h n; [done|].
  rewrite run_snoc. destruct c as [X|X]; cbn [step].
  - intros [[-> _]|Hin]%In_add_points; apply in_or_app.
    + right. by left.
    + left. by apply (IH h).
  - intros Hin%In_remove_points. apply in_or_app. left. by apply (IH h).
Qed.

(** X10.  On a ring built from an empty one by [addNode] and
    [removeNode] calls, [getNode] returns the empty string exactly for
    want of points, and otherwise the name of a node that was added by
    one of the calls and has not been removed since without being added
    again. *)
Theorem getNode_returns_member (numReplicas : Z) (cs : list call)
    (key : string) :
  (ring_ (run hash cs (make numReplicas)) = [] /\
   getNode hash key (run hash cs (make numReplicas)) = EmptyString) \/
  (ring_ (run hash cs (make numReplicas)) <> [] /\
   In (AddNode (getNode hash key (run hash cs (make numReplicas)))) cs /\
   ~ removed_for_good
       (getNode hash key (run hash cs (make numReplicas))) cs).
Proof.
  set (r := run hash cs (make numReplicas)).
  assert (Hasc : ascending (ring_ r)) by apply run_ascending, make_ascending.
  destruct (decide (ring_ r = [])) as [Hnil|Hne].
  { left. split; [done|]. by apply getNode_empty. }
  right. split; [done|].
  destruct (getNode_owner hash key r Hasc Hne) as (h & Hin & _).
  split; [by apply (run_points_added numReplicas cs h)|].
  intros (before & afterwards & Hcs & Hnot).
  assert (Habs : absent (getNode hash key r) r).
  { unfold r at 2. rewrite Hcs, run_app.
    change (run hash (RemoveNode ?C :: afterwards) ?r0)
      with (run hash afterwards (removeNode hash C r0)).
    apply run_absent; [done|]. apply removeNode_absent.
    - apply run_ascending, make_ascending.
    - apply run_names_hashed, make_names_hashed. }
  by apply (Habs h).
Qed.

(** X11.  Adding a node and removing it again gives back the ring as it
    was, provided none of the node's replica hashes was a point of the
    ring (no collision with a point already there). *)
Theorem add_remove_round_trip (numReplicas : Z) (cs : list call)
    (X : string) :
  (forall i, (Z.of_nat i < numReplicas)%Z ->
     find (hash (replica X i)) (ring_ (run hash cs (make numReplicas)))
     = None) ->
  removeNode hash X (addNode hash X (run hash cs (make numReplicas)))
  = run hash cs (make numReplicas).
Proof.
  set (r := run hash cs (make numReplicas)). intros Hfree.
  assert (Hasc : ascending (ring_ r)) by apply run_ascending, make_ascending.
  assert (Hnr : numReplicas_ r = numReplicas) by apply run_numReplicas.
  apply ring_ext; [|done|done|].
  - by apply (step_ascending hash (RemoveNode X)),
             (step_ascending hash (AddNode X)).
  - intros h. cbn [removeNode addNode ring_ numReplicas_].
    set (c := Z.to_nat (numReplicas_ r)).
    destruct (replica_hashes_dec hash X c h) as [Hh|Hh].
    + rewrite find_remove_points_at
        by (done || by apply ascending_add_points).
      apply In_replica_hashes in Hh as (i & Hi & ->).
      symmetry. apply Hfree. unfold c in Hi. lia.
    + rewrite find_remove_points_off
        by (done || by apply ascending_add_points).
      by apply find_add_points_off.
Qed.

(** X12.  Adding a node that has just been added, or removing a node
    that has just been removed, changes nothing. *)
Theorem add_remove_idempotent (numReplicas : Z) (cs : list call)
    (X : string) :
  addNode hash X (addNode hash X (run hash cs (make numReplicas)))
    = addNode hash X (run hash cs (make numReplicas)) /\
  removeNode hash X (removeNode hash X (run hash cs (make numReplicas)))
    = removeNode hash X (run hash cs (make numReplicas)).
Proof.
  set (r := run hash cs (make numReplicas)).
  assert (Hasc : ascending (ring_ r)) by apply run_ascending, make_ascending.
  pose proof (step_ascending hash (AddNode X) r Hasc) as Hadd.
  pose proof (step_ascending hash (RemoveNode X) r Hasc) as Hrem.
  split; apply ring_ext; try done.
  - by apply (step_ascending hash (AddNode X)).
  - intros h. cbn [addNode ring_ numReplicas_].
    set (c := Z.to_nat (numReplicas_ r)).
    destruct (replica_hashes_dec hash X c h) as [Hh|Hh].
    + by rewrite !find_add_points_at.
    + by rewrite !find_add_points_off.
  - by apply (step_ascending hash (RemoveNode X)).
  - intros h. cbn [removeNode ring_ numReplicas_].
    set (c := Z.to_nat (numReplicas_ r)).
    destruct (replica_hashes_dec hash X c h) as [Hh|Hh].
    + by rewrite !find_remove_points_at
        by (done || by apply ascending_remove_points).
    + by rewrite !find_remove_points_off
        by (done || by apply ascending_remove_points).
Qed.

End Hashed.

Lemma add_remove_round_trip_witness :
  removeNode sample_hash "nodeC"
    (addNode sample_hash "nodeC"
       (run sample_hash [AddNode "nodeA"; AddNode "nodeB"] (make 3)))
  = run sample_hash [AddNode "nodeA"; AddNode "nodeB"] (make 3).
Proof.
  apply add_remove_round_trip.
  intros i Hi. assert (i = 0 \/ i = 1 \/ i = 2) as [->|[->| ->]] by lia;
    by vm_compute.
Defined.

End RingMoreFacts.

(** ** The ring buffer as a queue *)

Module QueueFacts.
Import LockFreeRingBuffer BufferFacts.
Local Open Scope Z_scope.

Lemma omap_seq_ext {A} (f g : nat -> option A) n : forall a b,
  (forall k, (k < n)%nat -> f (a + k)%nat = g (b + k)%nat) ->
  omap f (seq a n) = omap g (seq b n).
Proof.
  induction n as [|n IH]; intros a b Hfg; [done|].
  rewrite !seq_S, !omap_app. f_equal.
  - apply IH. intros k Hk. apply Hfg. lia.
  - cbn. by rewrite (Hfg n) by lia.
Qed.

Section Queue.

Context {T : Type}.
Variable Size : Z.
Hypothesis Size_nonneg : 0 <= Size.
Hypothesis Size_fits : Size + 1 < 2 ^ 64.

Lemma ring_index x :
  0 <= x < 2 * (Size + 1) ->
  x mod (Size + 1) = if x <? Size + 1 then x else x - (Size + 1).
Proof.
  intros Hx. destruct (Z.ltb_spec x (Size + 1)).
  - apply Z.mod_small. lia.
  - symmetry. apply (Z.mod_unique_pos _ _ 1); lia.
Qed.

Lemma push_refused (item : T) rb :
  fst (push Size item rb) = false -> snd (push Size item rb) = rb.
Proof. unfold push. by destruct (_ =? _). Qed.

Lemma pop_refused (item : T) rb :
  fst (fst (pop Size item rb)) = false -> snd (pop Size item rb) = rb.
Proof. unfold pop. by destruct (_ =? _). Qed.

Lemma push_contents (item : T) rb :
  well_formed Size rb ->
  fst (push Size item rb) = true ->
  well_formed Size (snd (push Size item rb)) /\
  contents Size (snd (push Size item rb)) = contents Size rb ++ [item].
Proof.
  intros [Hr Hlen] Hok.
  destruct (push_spec Size Size_nonneg Size_fits item rb Hr)
    as (Hr' & _ & Hsize).
  rewrite Hok in Hsize.
  pose proof (size_bounds Size Size_nonneg Size_fits rb Hr) as Hb.
  pose proof (size_in_range Size Size_nonneg Size_fits rb Hr) as Hs.
  pose proof Hr as [Hh Ht].
  unfold contents. rewrite Hsize.
  replace (Z.to_nat (size Size rb + 1)) with (S (Z.to_nat (size Size rb)))
    by lia.
  revert Hok Hr'. unfold push.
  destruct (_ =? tail_ rb); [done|]. cbn [fst snd buffer_ tail_].
  intros _ Hr'. split.
  { split; [done|]. cbn [buffer_]. by rewrite length_insert. }
  rewrite seq_S, omap_app. f_equal.
  - apply omap_seq_ext. intros k Hk.
    apply list_lookup_insert_ne.
    rewrite ring_index by lia.
    destruct (Z.geb_spec (head_ rb) (tail_ rb));
      destruct (Z.ltb_spec (tail_ rb + Z.of_nat (0 + k)) (Size + 1)); lia.
  - cbn.
    replace (Z.to_nat ((tail_ rb + Z.of_nat (Z.to_nat (size Size rb)))
                       mod (Size + 1)))
      with (Z.to_nat (head_ rb)).
    + by rewrite list_lookup_insert_eq by lia.
    + f_equal. rewrite ring_index by lia.
      destruct (Z.geb_spec (head_ rb) (tail_ rb));
        destruct (Z.ltb_spec
                    (tail_ rb + Z.of_nat (Z.to_nat (size Size rb)))
                    (Size + 1)); lia.
Qed.

Lemma pop_contents (item : T) rb :
  well_formed Size rb ->
  fst (fst (pop Size item rb)) = true ->
  well_formed Size (snd (pop Size item rb)) /\
  contents Size rb
  = snd (fst (pop Size item rb)) :: contents Size (snd (pop Size item rb)).
Proof.
  intros [Hr Hlen] Hok.
  destruct (pop_spec Size Size_nonneg Size_fits item rb Hr)
    as (Hr' & Hpos & Hsize).
  rewrite Hok in Hsize.
  pose proof (size_bounds Size Size_nonneg Size_fits rb Hr) as Hb.
  pose proof (size_in_range Size Size_nonneg Size_fits rb Hr) as Hs.
  pose proof (next_index_cases Size Size_nonneg Size_fits (tail_ rb))
    as Hnext.
  pose proof Hr as [Hh Ht]. specialize (Hnext Ht).
  assert (Hsz : 0 < size Size rb) by by apply Hpos.
  unfold contents at 1.
  replace (Z.to_nat (size Size rb))
    with (S (Z.to_nat (size Size (snd (pop Size item rb))))) by lia.
  unfold contents. revert Hok Hr' Hsize. unfold pop.
  destruct (tail_ rb =? head_ rb); [done|].
  cbn [fst snd buffer_ tail_ head_]. intros _ Hr' Hsize.
  split; [by split|].
  set (tail' := wrap (tail_ rb + 1) mod wrap (Size + 1)) in *.
  cbn [seq omap list_omap].
  replace (Z.to_nat ((tail_ rb + Z.of_nat 0) mod (Size + 1)))
    with (Z.to_nat (tail_ rb))
    by (f_equal; rewrite Z.add_0_r, Z.mod_small; lia).
  destruct (lookup_lt_is_Some_2 (buffer_ rb) (Z.to_nat (tail_ rb)))
    as [x Hx]; [lia|].
  rewrite Hx. cbn [default]. f_equal.
  apply omap_seq_ext. intros k Hk. f_equal. f_equal.
  rewrite !ring_index by lia.
  destruct (Z.geb_spec (head_ rb) (tail_ rb));
    destruct (Z.ltb_spec (tail_ rb + Z.of_nat (1 + k)) (Size + 1));
    destruct (Z.ltb_spec (tail' + Z.of_nat (0 + k)) (Size + 1)); lia.
Qed.

Lemma accepted_cons c ok (tr : list (call T * bool)) :
  accepted ((c, ok) :: tr)
  = match c, ok with Push x, true => [x] | _, _ => [] end ++ accepted tr.
Proof. by destruct c, ok. Qed.

Lemma run_queue cs : forall rb : t T,
  well_formed Size rb ->
  well_formed Size (snd (run Size cs rb)) /\
  contents Size rb ++ accepted (fst (run Size cs rb))
  = delivered Size cs rb ++ contents Size (snd (run Size cs rb)).
Proof.
  induction cs as [|c cs IH]; intros rb Hwf.
  - cbn [run fst snd delivered accepted omap list_omap].
    by rewrite app_nil_r.
  - rewrite run_calls_cons. cbn [fst snd]. rewrite accepted_cons.
    destruct c as [x|x]; cbn [step delivered].
    + destruct (fst (push Size x rb)) eqn:Hok.
      * destruct (push_contents x rb Hwf Hok) as [Hwf' Hc].
        destruct (IH _ Hwf') as [Hwf2 Heq]. split; [done|].
        rewrite <- Heq, Hc, <- app_assoc. done.
      * rewrite (push_refused x rb Hok). by apply IH.
    + destruct (pop Size x rb) as [[ok item] rb'] eqn:Hpop.
      cbn [fst snd]. destruct ok.
      * destruct (pop_contents x rb Hwf) as [Hwf' Hc];
          [by rewrite Hpop|].
        rewrite Hpop in Hwf', Hc. cbn [fst snd] in Hwf', Hc.
        destruct (IH _ Hwf') as [Hwf2 Heq]. split; [done|].
        rewrite Hc. cbn [app]. f_equal. done.
      * assert (rb' = rb) as ->.
        { rewrite <- (pop_refused x rb); by rewrite Hpop. }
        by apply IH.
Qed.

Lemma omap_seq_length {A} (f : nat -> option A) n : forall a,
  (forall k, (k < n)%nat -> is_Some (f (a + k)%nat)) ->
  length (omap f (seq a n)) = n.
Proof.
  induction n as [|n IH]; intros a Hf; [done|].
  rewrite seq_S, omap_app, length_app, IH by (intros; apply Hf; lia).
  cbn. destruct (Hf n) as [x ->]; [lia|]. cbn. lia.
Qed.

Lemma contents_length (rb : t T) :
  well_formed Size rb ->
  Z.of_nat (length (contents Size rb)) = size Size rb.
Proof.
  intros [Hr Hlen].
  pose proof (size_bounds Size Size_nonneg Size_fits rb Hr) as Hb.
  unfold contents. rewrite omap_seq_length; [lia|].
  intros k Hk. apply lookup_lt_is_Some_2.
  pose proof (Z.mod_pos_bound (tail_ rb + Z.of_nat (0 + k)) (Size + 1)).
  lia.
Qed.

(** X13.  First in, first out.  On a buffer whose array has its
    [Size + 1] slots, used by one thread from the empty state: after any
    sequence of calls, the items that the successful pops delivered,
    followed by the items still held between [tail_] and [head_], are
    exactly the items that the successful pushes stored, in the order in
    which they were pushed; and [size()] is the number of items held. *)
Theorem ring_buffer_fifo (slots : list T) (cs : list (call T)) :
  Z.of_nat (length slots) = Size + 1 ->
  accepted (fst (run Size cs (make slots)))
    = delivered Size cs (make slots)
      ++ contents Size (snd (run Size cs (make slots))) /\
  Z.of_nat (length (contents Size (snd (run Size cs (make slots)))))
    = size Size (snd (run Size cs (make slots))).
Proof.
  intros Hlen.
  assert (Hwf : well_formed Size (make slots)).
  { split; [|done]. by apply make_in_range. }
  assert (Hs0 : size Size (make slots) = 0) by by apply make_size.
  destruct (run_queue cs _ Hwf) as [Hwf' Heq].
  split; [|by apply contents_length].
  rewrite <- Heq. unfold contents at 1. by rewrite Hs0.
Qed.

End Queue.

Lemma ring_buffer_fifo_witness :
  accepted (fst (run 2 [Push 10; Push 20; Push 30; Pop 0; Push 40; Pop 0]
                   (make [0; 0; 0])))
    = delivered 2 [Push 10; Push 20; Push 30; Pop 0; Push 40; Pop 0]
        (make [0; 0; 0])
      ++ contents 2
           (snd (run 2 [Push 10; Push 20; Push 30; Pop 0; Push 40; Pop 0]
                   (make [0; 0; 0]))) /\
  Z.of_nat
    (length
       (contents 2
          (snd (run 2 [Push 10; Push 20; Push 30; Pop 0; Push 40; Pop 0]
                  (make [0; 0; 0])))))
    = size 2 (snd (run 2 [Push 10; Push 20; Push 30; Pop 0; Push 40; Pop 0]
                     (make [0; 0; 0]))).
Proof.
  apply (ring_buffer_fifo 2 ltac:(lia) ltac:(lia)). reflexivity.
Defined.

(** The same run, evaluated: 30 is refused, 10 and 20 come out in
    order, 40 stays. *)
Example fifo_run :
  delivered 2 [Push 10; Push 20; Push 30; Pop 0; Push 40; Pop 0]
    (make [0; 0; 0]) = [10; 20] /\
  contents 2 (snd (run 2 [Push 10; Push 20; Push 30; Pop 0; Push 40; Pop 0]
                     (make [0; 0; 0]))) = [40].
Proof. by vm_compute. Qed.

End QueueFacts.

(** ** The thread pool's queue discipline *)

Module PoolMoreFacts.
Import ThreadPool.

Section Pool.

Variable task : Type.

Lemma after_events_cons (e : event task) es p :
  after_events (e :: es) p = after_events es (after_event e p).
Proof. reflexivity. Qed.

(** X14.  No task is lost, duplicated or reordered by the queue: after
    any sequence of enqueue calls, worker take-overs and the start of
    destruction, the tasks that were in the queue at the beginning
    followed by the tasks that [enqueue] accepted are the tasks handed
    to workers followed by the tasks still queued, in the same order. *)
Theorem queue_hands_over_in_order (es : list (event task)) (p : t task) :
  tasks_ p ++ queued es p
  = taken es p ++ tasks_ (after_events es p).
Proof.
  revert p. induction es as [|e es IH]; intros p.
  - cbn. by rewrite app_nil_r.
  - rewrite after_events_cons. cbn [queued taken].
    set (qe := match e with
               | Enqueue f =>
                   match enqueue f p with inr _ => [f] | inl _ => [] end
               | _ => []
               end).
    set (te := match e with
               | WorkerTake =>
                   match fst (worker_take p) with
                   | Some f => [f]
                   | None => []
                   end
               | _ => []
               end).
    assert (Hstep : tasks_ p ++ qe = te ++ tasks_ (after_event e p)).
    { unfold qe, te. destruct e as [f| |]; cbn [after_event].
      - unfold enqueue. destruct (stop_ p); cbn; by rewrite ?app_nil_r.
      - unfold worker_take.
        destruct (tasks_ p) eqn:E; cbn; by rewrite ?E, ?app_nil_r.
      - cbn. by rewrite app_nil_r. }
    by rewrite app_assoc, Hstep, <- !app_assoc, IH.
Qed.

Lemma worker_iteration_runs (p : t task) f q :
  tasks_ p = f :: q ->
  worker_iteration p = (Runs f, {| tasks_ := q; stop_ := stop_ p |}).
Proof.
  intros Hq. unfold worker_iteration, no_tasks. rewrite Hq.
  by destruct (stop_ p).
Qed.

Lemma worker_iteration_idle (p : t task) :
  tasks_ p = [] ->
  worker_iteration p = (if stop_ p then Returned else Blocked, p).
Proof.
  intros Hq. unfold worker_iteration, no_tasks. rewrite Hq.
  by destruct (stop_ p).
Qed.

Lemma worker_iterations_idle n : forall p : t task,
  tasks_ p = [] ->
  fst (worker_iterations n p)
  = replicate n (if stop_ p then Returned else Blocked).
Proof.
  induction n as [|n IH]; intros p Hq; [done|].
  cbn [worker_iterations]. rewrite (worker_iteration_idle p Hq).
  specialize (IH p Hq). destruct (worker_iterations n p) as [ss p2].
  cbn [fst] in *. by rewrite IH.
Qed.

(** X15.  Workers drain the queue before any of them returns.  From any
    state of the pool, the next passes of the worker loop run the queued
    tasks one by one in queue order; only when the queue is empty does a
    pass return from the worker (if the stop flag is set) or block (if it
    is not).  So destruction lets every task already queued run. *)
Theorem workers_drain_queue (p : t task) (more : nat) :
  fst (worker_iterations (length (tasks_ p) + more) p)
  = map Runs (tasks_ p)
    ++ replicate more (if stop_ p then Returned else Blocked).
Proof.
  remember (tasks_ p) as q eqn:Hq. revert p Hq.
  induction q as [|f q IH]; intros p Hq.
  - cbn [length Nat.add map app]. by apply worker_iterations_idle.
  - cbn [length Nat.add worker_iterations map app].
    rewrite (worker_iteration_runs p f q) by done.
    specialize (IH {| tasks_ := q; stop_ := stop_ p |} eq_refl).
    destruct (worker_iterations (length q + more) _) as [ss p2].
    cbn [fst stop_] in *. by rewrite IH.
Qed.

End Pool.

(** Destruction with two tasks queued and three worker passes. *)
Example drain_on_destruction :
  fst (worker_iterations 3
         (after_events [Enqueue 1; Enqueue 2; BeginDestruction] make))
  = [Runs 1; Runs 2; Returned].
Proof. reflexivity. Qed.

End PoolMoreFacts.
